(** * wcb_outflow: outflow contours and circuit-integral diagnostics

    A shallow embedding of [wcb_outflow/outflow.py] and [wcb_outflow/calc.py].

    Numbers.  The geometry of [outflow.py] (great-circle distances, contour
    lengths, resampling) is embedded over the real numbers: [np.sin],
    [np.cos], [np.arcsin] and [np.sqrt] are the functions [sin], [cos],
    [asin] and [sqrt] of the real-number library, and a binary64 value is
    read as the real it denotes.  The arithmetic of [calc.py] only subtracts
    and divides and depends on NaN, so it is embedded over the binary64
    floats themselves ([PrimFloat]).

    Python exceptions are values of [exn]; a call that may raise returns an
    [outcome].  The [while] loop of [increase_circuit_resolution] is run with
    fuel: [None] stands for a run that has not reached the exit of the loop.
    Whether that loop reaches its exit depends on rounding, so the distance
    and the loop are embedded a second time over binary64
    ([OutflowBinary64]), with numpy's elementary functions as parameters.
    Capabilities of matplotlib, iris, scipy and pylagranto (contouring,
    point-in-polygon tests, loading and filtering of fields, selection of
    trajectories) are parameters of the functions that call them.

    The file has the embedding first ([Outflow], [OutflowBinary64], [Calc]),
    then reference definitions and example inputs, then the properties
    ([CalcProps], [OutflowProps], [OutflowBinary64Props]). *)

From Stdlib Require Import Reals Lra Lia Arith ZArith Bool String Ascii List Sorted.
From Stdlib Require Floats.
Import ListNotations.

Set Implicit Arguments.

(** ** Exceptions *)

Inductive exn : Type :=
| ValueError (msg : string)
| IndexError
| UnboundLocalError (var : string)
| AttributeError
| ConstraintMismatchError.

Inductive outcome (A : Type) : Type :=
| Ok (a : A)
| Raise (e : exn).

Arguments Ok {A} a.
Arguments Raise {A} e.

Definition bind {A B : Type} (m : outcome A) (k : A -> outcome B) : outcome B :=
  match m with
  | Ok a => k a
  | Raise e => Raise e
  end.

Notation "x <- m ;; k" := (bind m (fun x => k))
  (at level 61, m at next level, right associativity).

(** [[f(x) for x in xs]]: the first exception, from left to right, escapes. *)
Fixpoint list_comprehension {A B : Type} (f : A -> outcome B) (xs : list A)
  : outcome (list B) :=
  match xs with
  | [] => Ok []
  | x :: xs' =>
      y <- f x ;;
      ys <- list_comprehension f xs' ;;
      Ok (y :: ys)
  end.

Module Outflow.

Open Scope R_scope.

(** A row of an (N, 2) array: longitude and latitude in degrees. *)
Definition point : Type := (R * R)%type.

(** An (N, 2) array of contour nodes. *)
Definition contour : Type := list point.

Definition origin : point := (0, 0).

Definition deg2rad (x : R) : R := x * (PI / 180).

(** [haversine]: great-circle distance in kilometres.  For latitudes between
    -90 and 90 degrees the argument of the square root lies between 0 and 1,
    where [sqrt] and [asin] are the functions that numpy computes. *)
Definition haversine (x1 x2 : point) : R :=
  let lon1 := deg2rad (fst x1) in
  let lat1 := deg2rad (snd x1) in
  let lon2 := deg2rad (fst x2) in
  let lat2 := deg2rad (snd x2) in
  let dlon := lon2 - lon1 in
  let dlat := lat2 - lat1 in
  let a := (sin (dlat / 2))² + cos lat1 * cos lat2 * (sin (dlon / 2))² in
  let c := 2 * asin (sqrt a) in
  let r := 6371 in
  c * r.

(** [points[-1]] of a non-empty array. *)
Definition last_point (points : contour) : point := last points origin.

(** [contour_length]: [points[-1]] and [points[0]] of an empty array raise
    IndexError. *)
Definition contour_length (points : contour) : outcome R :=
  match points with
  | [] => Raise IndexError
  | p0 :: _ =>
      let conlen := haversine (last_point points) p0 in
      Ok (fold_left
            (fun conlen n =>
               conlen + haversine (nth n points origin) (nth (n + 1) points origin))
            (seq 0 (length points - 1)) conlen)
  end.

(** [is_closed_contour]. *)
Definition is_closed_contour (contour_section : contour) (threshold : R)
  : outcome bool :=
  match contour_section with
  | [] => Raise IndexError
  | p0 :: _ =>
      Ok (if Rlt_dec (haversine p0 (last_point contour_section)) threshold
          then true else false)
  end.

(** [closed.astype(int)]. *)
Definition astype_int (b : bool) : R := if b then 1 else 0.

(** [ndarray.argmax] on a non-empty array: the first index of the maximum. *)
Fixpoint argmax_from (best_i : nat) (best : R) (i : nat) (l : list R) : nat :=
  match l with
  | [] => best_i
  | x :: l' =>
      if Rgt_dec x best then argmax_from i x (S i) l'
      else argmax_from best_i best (S i) l'
  end.

Definition argmax (l : list R) : nat :=
  match l with
  | [] => 0%nat
  | x :: l' => argmax_from 0 x 1 l'
  end.

(** [lengths *= closed.astype(int)]. *)
Fixpoint zero_open (lengths : list R) (closed : list bool) : list R :=
  match lengths, closed with
  | l :: ls, c :: cs => l * astype_int c :: zero_open ls cs
  | _, _ => []
  end.

Definition no_closed_contours : exn := ValueError "No closed contours found".
Definition empty_argmax : exn :=
  ValueError "attempt to get argmax of an empty sequence".

(** [get_longest_closed_contour]. *)
Definition get_longest_closed_contour (contours : list contour) (threshold : R)
  : outcome contour :=
  lengths <- list_comprehension contour_length contours ;;
  closed <- list_comprehension (fun x => is_closed_contour x threshold) contours ;;
  let lengths := zero_open lengths closed in
  match lengths with
  | [] => Raise empty_argmax
  | _ =>
      let imax := argmax lengths in
      let long_contour := nth imax contours [] in
      if Req_dec_T (nth imax lengths 0) 0 then Raise no_closed_contours
      else Ok long_contour
  end.

(** ** The contour resampler *)

(** [np.insert(arr, i, row, axis=0)]: a new array, [row] before index [i]. *)
Definition np_insert (arr : contour) (i : nat) (row : point) : contour :=
  firstn i arr ++ row :: skipn i arr.

(** The test of one pass of the [while] body at index [n]: where and what the
    pass inserts, if the next node is further away than [resolution]. *)
Definition next_insertion (points : contour) (n : nat) (resolution : R)
  : option (nat * point) :=
  let np1 := ((n + 1) mod length points)%nat in
  let distance := haversine (nth n points origin) (nth np1 points origin) in
  if Rgt_dec distance resolution then
    let dlon := fst (nth np1 points origin) - fst (nth n points origin) in
    let dlat := snd (nth np1 points origin) - snd (nth n points origin) in
    let new_lon := fst (nth n points origin) + (resolution / distance) * dlon in
    let new_lat := snd (nth n points origin) + (resolution / distance) * dlat in
    Some (np1, (new_lon, new_lat))
  else None.

(** The array the name [points] is bound to after one pass. *)
Definition circuit_step (points : contour) (n : nat) (resolution : R) : contour :=
  match next_insertion points n resolution with
  | Some (i, row) => np_insert points i row
  | None => points
  end.

(** The [while n < len(points)] loop; [None] when [fuel] passes do not reach
    its exit. *)
Fixpoint circuit_loop (fuel n : nat) (points : contour) (resolution : R)
  : option contour :=
  match fuel with
  | O => None
  | S fuel' =>
      if (n <? length points)%nat
      then circuit_loop fuel' (n + 1) (circuit_step points n resolution) resolution
      else Some points
  end.

(** [increase_circuit_resolution], on array values. *)
Definition increase_circuit_resolution (fuel : nat) (points : contour)
  (resolution : R) : option contour :=
  circuit_loop fuel 0 points resolution.

(** *** The same loop over array objects

    A Python name holds a reference to an array object.  The store lists the
    array objects allocated so far; a reference is an index into it. *)

Definition store : Type := list contour.
Definition ref : Type := nat.

Definition deref (h : store) (r : ref) : contour := nth r h [].

(** A new array object: the result of [np.insert]. *)
Definition alloc (h : store) (arr : contour) : store * ref :=
  (h ++ [arr], length h).

(** One pass: [points = np.insert(points, ...)] rebinds the local name to a
    new object; no statement of the body writes into an array. *)
Definition circuit_step_ref (h : store) (points : ref) (n : nat) (resolution : R)
  : store * ref :=
  match next_insertion (deref h points) n resolution with
  | Some (i, row) => alloc h (np_insert (deref h points) i row)
  | None => (h, points)
  end.

(** The store after at most [fuel] passes, and the reference the function
    returns if the loop has exited by then. *)
Fixpoint circuit_loop_ref (fuel n : nat) (h : store) (points : ref)
  (resolution : R) : store * option ref :=
  match fuel with
  | O => (h, None)
  | S fuel' =>
      if (n <? length (deref h points))%nat
      then
        let '(h', points') := circuit_step_ref h points n resolution in
        circuit_loop_ref fuel' (n + 1) h' points' resolution
      else (h, Some points)
  end.

Definition increase_circuit_resolution_ref (fuel : nat) (h : store)
  (points : ref) (resolution : R) : store * option ref :=
  circuit_loop_ref fuel 0 h points resolution.

(** ** Bin edges of the inflow histogram *)

(** [np.diff(x)]: [x[i+1] - x[i]]. *)
Fixpoint np_diff (x : list R) : list R :=
  match x with
  | a :: (b :: _) as x' => (b - a) :: np_diff x'
  | _ => []
  end.

(** [ndarray.mean]. *)
Definition mean (l : list R) : R := fold_right Rplus 0 l / INR (length l).

(** [_bin_edges]; [x[-1]] of an empty array raises IndexError. *)
Definition _bin_edges (x : list R) : outcome (list R) :=
  match x with
  | [] => Raise IndexError
  | _ =>
      let dx := mean (np_diff x) in
      Ok (map (fun xi => xi - dx) x ++ [last x 0 + dx])
  end.

(** ** Fields on a grid *)

(** A two-dimensional cube, flattened in row order: the longitude and latitude
    of every grid point, and the value there. *)
Record field (V : Type) : Type := Field {
  grid : list point;
  data : list V
}.

(** [np.where(mask)[0]]. *)
Fixpoint np_where_from (i : nat) (mask : list bool) : list nat :=
  match mask with
  | [] => []
  | b :: mask' =>
      if b then i :: np_where_from (S i) mask' else np_where_from (S i) mask'
  end.

Definition np_where (mask : list bool) : list nat := np_where_from 0 mask.

(** [criteria = np.logical_and(pv.data < 2, dtheta.data > 0).astype(int)] *)
Fixpoint criteria_mask (pv_data dtheta_data : list R) : list Z :=
  match pv_data, dtheta_data with
  | p :: ps, d :: ds =>
      (if Rlt_dec p 2 then if Rgt_dec d 0 then 1%Z else 0%Z else 0%Z)
        :: criteria_mask ps ds
  | _, _ => []
  end.

(** Rows of the returned and accumulated arrays. *)
Definition row3 : Type := (point * R)%type.
Definition row4 : Type := (row3 * R)%type.

Inductive event : Type :=
| PrintLevel (theta_level : R)
| PrintText (s : string)
| NpSaveBoundaries (file : string) (arr : list row3)
| NpSaveVolume (file : string) (arr : list row4)
| PltShow.

(** The local names of [outflow_th] that the loop assigns; [None] is a name
    not bound yet. *)
Record locals : Type := Locals {
  new_contours : bool;
  outflow_boundaries : option (list row3);
  outflow_volume : option (list row4)
}.

(** What [at_inflow_time] writes and shows: the file
    [outflow_boundaries_at_inflow_time_<theta>K.npy] of a level, and
    [plt.show()]. *)
Inductive inflow_event : Type :=
| NpSaveInflow (theta : R) (closed_loop : contour)
| InflowShow.

Section External.

(** Capabilities of matplotlib, iris and scipy that the module calls. *)

(** [iplt.contour(cube, [level]).allsegs[0]]. *)
Variable iplt_contour : field Z -> R -> list contour.

(** [mpl.path.Path(polygon).contains_points(points)], per point. *)
Variable contains_points : contour -> point -> bool.

(** The fields of a level, restricted to the box and median-filtered:
    [dtheta_subset], [pv_subset], [z_subset]. *)
Variable level_subsets : R -> field R * field R * field R.

(** [get_points].  The array returned by [increase_circuit_resolution] is
    not bound to a name. *)
Definition get_points (fuel : nat) (dtheta pv z : field R) (resolution : R)
  : option (outcome (contour * list row3)) :=
  let criteria := Field (grid pv) (criteria_mask (data pv) (data dtheta)) in
  let contours := iplt_contour criteria (1 / 2) in
  match get_longest_closed_contour contours 100 with
  | Raise e => Some (Raise e)
  | Ok selected =>
      let '(h, closed_loop) := alloc [] selected in
      match increase_circuit_resolution_ref fuel h closed_loop resolution with
      | (_, None) => None
      | (h, Some _) =>
          let path := deref h closed_loop in
          let points := grid dtheta in
          let idx := np_where (map (contains_points path) points) in
          let points3d := combine (grid dtheta) (data z) in
          Some (Ok (deref h closed_loop,
                    map (fun i => nth i points3d (origin, 0)) idx))
      end
  end.

(** The body of the [for] loop of [outflow_th] over the remaining levels. *)
Fixpoint outflow_th_levels (fuel : nat) (theta_levels : list R)
  (resolution : R) (st : locals) (log : list event)
  : option (list event * outcome locals) :=
  match theta_levels with
  | [] => Some (log, Ok st)
  | theta_level :: rest =>
      let log := log ++ [PrintLevel theta_level] in
      let '(dtheta_subset, pv_subset, z_subset) := level_subsets theta_level in
      match get_points fuel dtheta_subset pv_subset z_subset resolution with
      | None => None
      | Some (Ok (boundary, points)) =>
          let boundary3d := map (fun p => (p, theta_level)) boundary in
          let points3d := map (fun p => (p, theta_level)) points in
          if new_contours st then
            outflow_th_levels fuel rest resolution
              (Locals false (Some boundary3d) (Some points3d)) log
          else
            match outflow_boundaries st, outflow_volume st with
            | Some b, Some v =>
                outflow_th_levels fuel rest resolution
                  (Locals false (Some (b ++ boundary3d)) (Some (v ++ points3d)))
                  log
            | None, _ => Some (log, Raise (UnboundLocalError "outflow_boundaries"))
            | _, None => Some (log, Raise (UnboundLocalError "outflow_volume"))
            end
      | Some (Raise (ValueError _)) =>
          outflow_th_levels fuel rest resolution st
            (log ++ [PrintText "No closed contours found at this level"])
      | Some (Raise e) => Some (log, Raise e)
      end
  end.

(** [outflow_th]: the events of the call and how it ends. *)
Definition outflow_th (fuel : nat) (theta_levels : list R) (resolution : R)
  (save : bool) : option (list event * outcome unit) :=
  match outflow_th_levels fuel theta_levels resolution
          (Locals true None None) [] with
  | None => None
  | Some (log, Raise e) => Some (log, Raise e)
  | Some (log, Ok st) =>
      if save then
        match outflow_boundaries st with
        | None => Some (log, Raise (UnboundLocalError "outflow_boundaries"))
        | Some b =>
            let log := log ++ [NpSaveBoundaries "outflow_boundaries.npy" b] in
            match outflow_volume st with
            | None => Some (log, Raise (UnboundLocalError "outflow_volume"))
            | Some v =>
                Some (log ++ [NpSaveVolume "outflow_volume.npy" v], Ok tt)
            end
        end
      else Some (log ++ [PltShow], Ok tt)
  end.

(** [np.histogram2d(xpoints, ypoints, bins)] followed by the transposed
    median filter and [iplt.contour(histogram, [0.5]).allsegs[0]]. *)
Variable histogram_contours : list R -> list R -> list R * list R -> list contour.

(** [contour_around_points]; [x] and [y] are the coordinate points of
    [example_cube]. *)
Definition contour_around_points (xpoints ypoints x y : list R)
  : outcome contour :=
  xed <- _bin_edges x ;;
  yed <- _bin_edges y ;;
  let bins := (xed, yed) in
  get_longest_closed_contour (histogram_contours xpoints ypoints bins) 100.

(** The positions [x[:, -1]] and [y[:, -1]] of the trajectories selected at a
    level of [case.outflow_theta]. *)
Variable select_theta : R -> list R * list R.

(** The body of the [for] loop of [at_inflow_time] over the remaining
    levels; no exception is handled. *)
Fixpoint at_inflow_time_levels (outflow_theta : list R) (x y : list R)
  (log : list inflow_event) : list inflow_event * outcome unit :=
  match outflow_theta with
  | [] => (log, Ok tt)
  | theta :: rest =>
      let '(xpoints, ypoints) := select_theta theta in
      match contour_around_points xpoints ypoints x y with
      | Raise e => (log, Raise e)
      | Ok closed_loop =>
          at_inflow_time_levels rest x y (log ++ [NpSaveInflow theta closed_loop])
      end
  end.

(** [at_inflow_time]: the events of the call and how it ends; [x] and [y]
    are the coordinate points of the loaded cube. *)
Definition at_inflow_time (outflow_theta : list R) (x y : list R)
  : list inflow_event * outcome unit :=
  match at_inflow_time_levels outflow_theta x y [] with
  | (log, Ok _) => (log ++ [InflowShow], Ok tt)
  | (log, Raise e) => (log, Raise e)
  end.

End External.

End Outflow.

(** * The resampler on binary64

    Whether the loop of [increase_circuit_resolution] reaches its exit
    depends on the rounding of the inserted node, which the real numbers do
    not show.  The distance and the loop are therefore embedded a second
    time, over the binary64 floats.  numpy's elementary functions are
    parameters; the arithmetic, the comparison and the square root are the
    IEEE operations of [PrimFloat]. *)

Module OutflowBinary64.

Import Floats.PrimFloat.

(** A row of an (N, 2) array of binary64 values, and the array. *)
Definition point : Type := (float * float)%type.
Definition contour : Type := list point.

Definition origin : point := (0%float, 0%float).

(** [np.insert(arr, i, row, axis=0)]: a new array, [row] before index [i]. *)
Definition np_insert (arr : contour) (i : nat) (row : point) : contour :=
  firstn i arr ++ row :: skipn i arr.

Section Numpy.

(** [np.deg2rad], [np.sin], [np.cos], [np.arcsin] and [x ** 2] on binary64. *)
Variables np_deg2rad np_sin np_cos np_arcsin np_square : float -> float.

(** [haversine]. *)
Definition haversine (x1 x2 : point) : float :=
  let lon1 := np_deg2rad (fst x1) in
  let lat1 := np_deg2rad (snd x1) in
  let lon2 := np_deg2rad (fst x2) in
  let lat2 := np_deg2rad (snd x2) in
  let dlon := (lon2 - lon1)%float in
  let dlat := (lat2 - lat1)%float in
  let a := (np_square (np_sin (dlat / 2))
            + np_cos lat1 * np_cos lat2 * np_square (np_sin (dlon / 2)))%float in
  let c := (2 * np_arcsin (sqrt a))%float in
  let r := 6371%float in
  (c * r)%float.

(** The test of one pass of the [while] body at index [n]: where and what the
    pass inserts, if [distance > resolution]. *)
Definition next_insertion (points : contour) (n : nat) (resolution : float)
  : option (nat * point) :=
  let np1 := ((n + 1) mod length points)%nat in
  let distance := haversine (nth n points origin) (nth np1 points origin) in
  if (resolution <? distance)%float then
    let dlon := (fst (nth np1 points origin) - fst (nth n points origin))%float in
    let dlat := (snd (nth np1 points origin) - snd (nth n points origin))%float in
    let new_lon :=
      (fst (nth n points origin) + resolution / distance * dlon)%float in
    let new_lat :=
      (snd (nth n points origin) + resolution / distance * dlat)%float in
    Some (np1, (new_lon, new_lat))
  else None.

(** The array the name [points] is bound to after one pass. *)
Definition circuit_step (points : contour) (n : nat) (resolution : float)
  : contour :=
  match next_insertion points n resolution with
  | Some (i, row) => np_insert points i row
  | None => points
  end.

(** The [while n < len(points)] loop; [None] when [fuel] passes do not reach
    its exit. *)
Fixpoint circuit_loop (fuel n : nat) (points : contour) (resolution : float)
  : option contour :=
  match fuel with
  | O => None
  | S fuel' =>
      if (n <? length points)%nat
      then circuit_loop fuel' (n + 1) (circuit_step points n resolution) resolution
      else Some points
  end.

(** [increase_circuit_resolution]. *)
Definition increase_circuit_resolution (fuel : nat) (points : contour)
  (resolution : float) : option contour :=
  circuit_loop fuel 0 points resolution.

End Numpy.

End OutflowBinary64.

Module Calc.

Import Floats.PrimFloat.

(** ** Cubes

    The circuit integrals are time series: a cube has a name, a unit, a time
    coordinate and one binary64 value per time.  A unit is kept as the
    expression that builds it. *)

Inductive Unit : Type :=
| unit_of (symbol : string)
| unit_div (u v : Unit).

Record Cube : Type := mkCube {
  name : string;
  units : Unit;
  time : list Z;
  data : list float
}.

(** [seq[i]] for a Python integer [i]: negative indices count from the end. *)
Definition getitem {A : Type} (l : list A) (i : Z) : outcome A :=
  let n := Z.of_nat (length l) in
  let j := if (i <? 0)%Z then (i + n)%Z else i in
  if (j <? 0)%Z then Raise IndexError
  else match nth_error l (Z.to_nat j) with
       | Some a => Ok a
       | None => Raise IndexError
       end.

(** [cube[i]]: the cube of one time. *)
Definition cube_getitem (c : Cube) (i : Z) : outcome Cube :=
  t <- getitem (time c) i ;;
  v <- getitem (data c) i ;;
  Ok (mkCube (name c) (units c) [t] [v]).

(** [cube[mask]] for a boolean array [mask]. *)
Fixpoint select {A : Type} (mask : list bool) (l : list A) : list A :=
  match mask, l with
  | b :: mask', a :: l' => if b then a :: select mask' l' else select mask' l'
  | _, _ => []
  end.

Definition cube_mask (c : Cube) (mask : list bool) : Cube :=
  mkCube (name c) (units c) (select mask (time c)) (select mask (data c)).

(** The value of a cube of one time, as cube arithmetic broadcasts it. *)
Definition scalar (c : Cube) : float := nth 0 (data c) nan.

(** [cube - scalar_cube] and [cube / scalar_cube]; iris names the result of
    cube arithmetic [unknown]. *)
Definition sub_scalar (c s : Cube) : Cube :=
  mkCube "unknown" (units c) (time c) (map (fun v => v - scalar s)%float (data c)).

Definition div_scalar (c s : Cube) : Cube :=
  mkCube "unknown" (unit_div (units c) (units s)) (time c)
    (map (fun v => v / scalar s)%float (data c)).

(** [diff]. *)
Definition diff (cube_theta : Cube) (idx_0 : option Z) : outcome Cube :=
  cube_initial <-
    match idx_0 with
    | None =>
        if negb (forallb is_nan (data cube_theta))
        then cube_getitem
               (cube_mask cube_theta (map (fun v => negb (is_nan v)) (data cube_theta)))
               0
        else cube_getitem cube_theta 0
    | Some i => cube_getitem cube_theta i
    end ;;
  Ok (div_scalar (sub_scalar cube_theta cube_initial) cube_initial).

(** [cube_a / cube_b], elementwise on equal shapes. *)
Fixpoint divide (a b : list float) : list float :=
  match a, b with
  | x :: a', y :: b' => (x / y)%float :: divide a' b'
  | _, _ => []
  end.

Definition cube_div (a b : Cube) : outcome Cube :=
  if (length (data a) =? length (data b))%nat
  then Ok (mkCube "unknown" (unit_div (units a) (units b)) (time a)
             (divide (data a) (data b)))
  else Raise (ValueError "operands could not be broadcast together").

(** [CubeList.extract_strict(name)]: exactly one cube of that name. *)
Definition extract_strict (cubes : list Cube) (wanted : string) : outcome Cube :=
  match filter (fun c => String.eqb (name c) wanted) cubes with
  | [c] => Ok c
  | _ => Raise ConstraintMismatchError
  end.

(** [cube.extract(iris.Constraint(time=keep))]: the times that [keep]
    accepts with their data; [None] when no time is accepted. *)
Definition extract_time (keep : Z -> bool) (c : Cube) : option Cube :=
  let mask := map keep (time c) in
  match select mask (time c) with
  | [] => None
  | _ => Some (cube_mask c mask)
  end.

Definition rename (c : Cube) (new_name : string) : Cube :=
  mkCube new_name (units c) (time c) (data c).

Definition set_units (c : Cube) (u : Unit) : Cube :=
  mkCube (name c) u (time c) (data c).

(** [cube.data = values]: the shape must not change. *)
Definition set_data (c : Cube) (values : list float) : outcome Cube :=
  if (length values =? length (data c))%nat
  then Ok (mkCube (name c) (units c) (time c) values)
  else Raise (ValueError "shape mismatch").

(** [cell in dates]. *)
Definition cell_in (dates : list Z) (cell : Z) : bool :=
  existsb (Z.eqb cell) dates.

(** [equate_times]; [extract] returns [None] when nothing matches, and
    [None.coord] and [None.copy] raise AttributeError. *)
Definition equate_times (cube reference_cube : Cube) : outcome (Cube * Cube) :=
  let ref_dates := time reference_cube in
  match extract_time (cell_in ref_dates) cube with
  | None => Raise AttributeError
  | Some cube =>
      let cube_dates := time cube in
      match extract_time (cell_in cube_dates) reference_cube with
      | None => Raise AttributeError
      | Some reference_cube =>
          let new_cube := reference_cube in
          let new_cube := rename new_cube (name cube) in
          let new_cube := set_units new_cube (units cube) in
          new_cube <- set_data new_cube (data cube) ;;
          Ok (new_cube, reference_cube)
      end
  end.

(** [density]. *)
Definition density (cubes : list Cube) : outcome Cube :=
  mass <- extract_strict cubes "mass" ;;
  area <- extract_strict cubes "area" ;;
  cube_div mass area.

(** [vorticity]. *)
Definition vorticity (cubes : list Cube) (circulation_name : string)
  : outcome Cube :=
  area <- extract_strict cubes "area" ;;
  circulation <- extract_strict cubes (circulation_name ++ "circulation") ;;
  pair <- equate_times area circulation ;;
  let '(area, circulation) := pair in
  cube_div circulation area.

(** [potential_vorticity]. *)
Definition potential_vorticity (cubes : list Cube) (circulation_name : string)
  : outcome Cube :=
  mass <- extract_strict cubes "mass" ;;
  circulation <- extract_strict cubes (circulation_name ++ "circulation") ;;
  pair <- equate_times mass circulation ;;
  let '(mass, circulation) := pair in
  cube_div circulation mass.

(** [ratio]. *)
Definition ratio (cubes : list Cube) : outcome Cube :=
  mass <- extract_strict cubes "mass" ;;
  area <- extract_strict cubes "area" ;;
  alpha <- diff mass None ;;
  epsilon <- diff area None ;;
  cube_div alpha epsilon.

(** [sub in s]. *)
Fixpoint contains (sub s : string) : bool :=
  prefix sub s ||
  match s with
  | EmptyString => false
  | String _ s' => contains sub s'
  end.

(** [s[:-n]] for a positive [n]. *)
Definition drop_last (n : nat) (s : string) : string :=
  substring 0 (String.length s - n) s.

(** [get_cube_by_name]. *)
Definition get_cube_by_name (cubes : list Cube) (name : string) : outcome Cube :=
  if String.eqb name "density" then density cubes
  else if contains "vorticity" name then vorticity cubes (drop_last 9 name)
  else if contains "PV" name then potential_vorticity cubes (drop_last 2 name)
  else if String.eqb name "mass area anomaly ratio" then ratio cubes
  else extract_strict cubes name.

End Calc.

(** ** Reference definitions in the words of the specification *)

Module CalcSpec.

Import Floats.PrimFloat.
Import Calc.

(** The times of [a] that are also times of [b], in the order of [a]. *)
Definition common_times (a b : list Z) : list Z := filter (cell_in b) a.

(** A field restricted to the times in [dates]: same name and unit, the
    accepted times and their data. *)
Definition restricted (c : Cube) (dates : list Z) : Cube :=
  cube_mask c (map (cell_in dates) (time c)).

(** The first non-missing value if any, else the literal first value; with
    an explicit index, the value there. *)
Definition reference_value (values : list float) (idx_0 : option Z)
  : option float :=
  match idx_0 with
  | Some k =>
      match getitem values k with
      | Ok v => Some v
      | Raise _ => None
      end
  | None =>
      match find (fun v => negb (is_nan v)) values with
      | Some v => Some v
      | None => hd_error values
      end
  end.

(** [(field - reference) / reference], elementwise. *)
Definition fractional_change (values : list float) (reference : float)
  : list float :=
  map (fun v => ((v - reference) / reference)%float) values.

(** A time coordinate: ordered, unique points. *)
Definition time_coordinate (c : Cube) : Prop :=
  StronglySorted Z.lt (time c) /\ length (time c) = length (data c).

End CalcSpec.

(** ** Inputs used in the examples *)

Module CalcExamples.

Import Floats.PrimFloat.
Import Calc.

Definition area_0123 : Cube :=
  mkCube "area" (unit_of "m2") [0; 1; 2; 3]%Z [10; 11; 12; 13]%float.

Definition circulation_124 : Cube :=
  mkCube "circulation" (unit_of "m2 s-1") [1; 2; 4]%Z [21; 22; 24]%float.

Definition mass_inf : Cube :=
  mkCube "mass" (unit_of "kg") [0; 1]%Z [infinity; 1]%float.

Definition mass_345 : Cube :=
  mkCube "mass" (unit_of "kg") [0; 1; 2]%Z [3; 4; 5]%float.

Definition stored_density : Cube :=
  mkCube "density" (unit_of "kg m-2") [0; 1]%Z [2; 2]%float.

Definition stored_theta : Cube :=
  mkCube "air_potential_temperature" (unit_of "K") [0; 1]%Z [300; 305]%float.

Definition circulation_78 : Cube :=
  mkCube "circulation" (unit_of "m2 s-1") [7; 8]%Z [27; 28]%float.

Definition mass_gap : Cube :=
  mkCube "mass" (unit_of "kg") [0; 1; 2]%Z [nan; 4; 5]%float.

Definition mass_3456 : Cube :=
  mkCube "mass" (unit_of "kg") [0; 1; 2; 3]%Z [3; 4; 5; 6]%float.

Definition relative_circulation : Cube :=
  mkCube "relative_circulation" (unit_of "m2 s-1") [1; 2; 4]%Z [21; 22; 24]%float.

End CalcExamples.

Module OutflowSpec.

Import Outflow.
Open Scope R_scope.

(** The argument of the square root in [haversine]. *)
Definition hav_a (x1 x2 : point) : R :=
  (sin ((deg2rad (snd x2) - deg2rad (snd x1)) / 2))²
  + cos (deg2rad (snd x1)) * cos (deg2rad (snd x2))
    * (sin ((deg2rad (fst x2) - deg2rad (fst x1)) / 2))².

(** The sum of the coordinate differences of two nodes, in degrees. *)
Definition taxicab (p q : point) : R :=
  Rabs (fst q - fst p) + Rabs (snd q - snd p).

(** A bound on the kilometres per degree of coordinate difference. *)
Definition km_per_degree_bound : R := 6371 * 3 * (PI / 180).

(** The node that a pass inserts after [p] when the next node is [q]: on the
    straight line from [p] to [q] in longitude and latitude, at the fraction
    [resolution / distance]. *)
Definition interpolate (p q : point) (resolution : R) : point :=
  (fst p + resolution / haversine p q * (fst q - fst p),
   snd p + resolution / haversine p q * (snd q - snd p)).

(** What the passes make of a contour, up to its last node: every node [p]
    whose successor [q] is within the resolution is followed by [q]; every
    node [p] whose successor [q] is further away is followed by the node
    inserted on the way to [q], which then stands to [q] as [p] did. *)
Inductive resampled (resolution : R) : contour -> contour -> Prop :=
| resampled_nil : resampled resolution [] []
| resampled_one (p : point) : resampled resolution [p] [p]
| resampled_near (p q : point) (l out : contour) :
    haversine p q <= resolution ->
    resampled resolution (q :: l) out ->
    resampled resolution (p :: q :: l) (p :: out)
| resampled_far (p q : point) (l out : contour) :
    haversine p q > resolution ->
    resampled resolution (interpolate p q resolution :: q :: l) out ->
    resampled resolution (p :: q :: l) (p :: out).

(** [l] is [l'] with some nodes left out: the relative order is kept. *)
Inductive subseq : contour -> contour -> Prop :=
| subseq_nil : subseq [] []
| subseq_keep (p : point) (l l' : contour) : subseq l l' -> subseq (p :: l) (p :: l')
| subseq_skip (p : point) (l l' : contour) : subseq l l' -> subseq l (p :: l').

(** The length and the closure test of a non-empty contour. *)
Definition length_km (c : contour) : R :=
  match contour_length c with
  | Ok l => l
  | Raise _ => 0
  end.

Definition closed_within (threshold : R) (c : contour) : bool :=
  match is_closed_contour c threshold with
  | Ok b => b
  | Raise _ => false
  end.

(** The zeroed length of a candidate. *)
Definition zeroed (threshold : R) (c : contour) : R :=
  length_km c * astype_int (closed_within threshold c).

(** [i] is the first index of the maximum of [l]. *)
Definition first_max (l : list R) (i : nat) : Prop :=
  (i < length l)%nat /\
  (forall j, (j < length l)%nat -> nth j l 0 <= nth i l 0) /\
  (forall j, (j < i)%nat -> nth j l 0 < nth i l 0).

(** Bin edges at the midpoints of a grid of spacing [dx], extended by half a
    cell at each end. *)
Definition midpoint_edges (x : list R) (dx : R) : list R :=
  map (fun xi => xi - dx / 2) x ++ [last x 0 + dx / 2].

(** A grid of [n] coordinates from [x0] in steps of [dx]. *)
Fixpoint uniform_grid (x0 dx : R) (n : nat) : list R :=
  match n with
  | O => []
  | S n' => x0 :: uniform_grid (x0 + dx) dx n'
  end.

(** The rows of the grid that the polygon [path] contains, with altitude. *)
Definition interior (contains_points : contour -> point -> bool)
  (path : contour) (dtheta z : field R) : list row3 :=
  map (fun i => nth i (combine (grid dtheta) (data z)) (origin, 0))
    (np_where (map (contains_points path) (grid dtheta))).

(** The rows that a level contributes to the accumulated arrays. *)
Definition tagged {A : Type} (theta_level : R) (rows : list A) : list (A * R) :=
  map (fun p => (p, theta_level)) rows.

(** What the levels contribute, given the outcome [run] of the extraction at
    each level. *)
Section Accumulated.

Variable run : R -> option (outcome (contour * list row3)).

Definition level_succeeded (theta_level : R) : bool :=
  match run theta_level with
  | Some (Ok _) => true
  | _ => false
  end.

Definition level_boundary (theta_level : R) : list row3 :=
  match run theta_level with
  | Some (Ok (boundary, _)) => tagged theta_level boundary
  | _ => []
  end.

Definition level_volume (theta_level : R) : list row4 :=
  match run theta_level with
  | Some (Ok (_, points)) => tagged theta_level points
  | _ => []
  end.

Definition level_console (theta_level : R) : list event :=
  PrintLevel theta_level ::
  if level_succeeded theta_level then []
  else [PrintText "No closed contours found at this level"].

(** The extraction at the level returns, or fails with a ValueError. *)
Definition level_settled (theta_level : R) : Prop :=
  (exists boundary points, run theta_level = Some (Ok (boundary, points))) \/
  (exists msg, run theta_level = Some (Raise (ValueError msg))).

End Accumulated.

(** The driver's view of the levels, for given capabilities. *)
Section DriverSpec.

Variable iplt_contour : field Z -> R -> list contour.
Variable contains_points : contour -> point -> bool.
Variable level_subsets : R -> field R * field R * field R.
Variable fuel : nat.
Variable resolution : R.

(** The outcome of the extraction at a level. *)
Definition extraction (theta_level : R)
  : option (outcome (contour * list row3)) :=
  let '(dtheta_subset, pv_subset, z_subset) := level_subsets theta_level in
  get_points iplt_contour contains_points fuel dtheta_subset pv_subset z_subset
    resolution.

(** The arrays bound so far. *)
Definition bound_boundaries (st : locals) : list row3 :=
  match outflow_boundaries st with
  | Some b => b
  | None => []
  end.

Definition bound_volume (st : locals) : list row4 :=
  match outflow_volume st with
  | Some v => v
  | None => []
  end.

(** The flag is cleared exactly when both arrays are bound. *)
Definition consistent (st : locals) : Prop :=
  (new_contours st = true /\ outflow_boundaries st = None /\ outflow_volume st = None) \/
  (new_contours st = false /\ exists b v,
      outflow_boundaries st = Some b /\ outflow_volume st = Some v).

Definition accumulated (st : locals) (theta_levels : list R) : locals :=
  if existsb (level_succeeded extraction) theta_levels
  then Locals false
         (Some (bound_boundaries st ++ flat_map (level_boundary extraction) theta_levels))
         (Some (bound_volume st ++ flat_map (level_volume extraction) theta_levels))
  else st.

End DriverSpec.

(** The sum of the distances between consecutive nodes, without the edge
    from the last node back to the first. *)
Fixpoint path_km (c : contour) : R :=
  match c with
  | p :: (q :: _) as c' => haversine p q + path_km c'
  | _ => 0
  end.

(** Every node has the next node of the loop, the first one after the last,
    within [resolution]. *)
Definition fine (resolution : R) (points : contour) : Prop :=
  forall n, (n < length points)%nat ->
    haversine (nth n points origin)
      (nth ((n + 1) mod length points) points origin) <= resolution.

(** The contour around the trajectories of a level at the inflow time. *)
Definition inflow_loop
  (histogram_contours : list R -> list R -> list R * list R -> list contour)
  (select_theta : R -> list R * list R) (x y : list R) (theta : R)
  : outcome contour :=
  let '(xpoints, ypoints) := select_theta theta in
  contour_around_points histogram_contours xpoints ypoints x y.

(** The files written for the levels that have a contour. *)
Definition inflow_saved (run : R -> outcome contour) (outflow_theta : list R)
  : list inflow_event :=
  flat_map
    (fun theta =>
       match run theta with
       | Ok closed_loop => [NpSaveInflow theta closed_loop]
       | Raise _ => []
       end)
    outflow_theta.

End OutflowSpec.

Module OutflowExamples.

Import Outflow.
Open Scope R_scope.

(** A closed contour along a meridian: out to half a degree north and back. *)
Definition there_and_back : contour := [(0, 0); (0, 1 / 2); (0, 0)].

(** An open contour: ten degrees of a meridian. *)
Definition open_line : contour := [(0, 0); (0, 10)].

(** Two nodes on a meridian, 0.8 degrees (about 89 km) apart. *)
Definition meridian_pair : contour := [(0, 0); (0, 4 / 5)].

(** A contour of one node. *)
Definition single_node : contour := [(10, 50)].



(** A field and an altitude on one grid point. *)
Definition half_degree_field : field R := Field [(0, 1 / 4)] [1].
Definition half_degree_altitude : field R := Field [(0, 1 / 4)] [9000].

(** A field above the threshold of potential vorticity on one grid point. *)
Definition stratospheric_field : field R := Field [(0, 1 / 4)] [3].

(** Contouring that finds a closed contour where the mask is set on the one
    grid point, and an open line elsewhere. *)
Definition contours_of_mask (criteria : field Z) (level : R) : list contour :=
  match data criteria with
  | [1%Z] => [there_and_back]
  | _ => [open_line]
  end.

(** Fields in which the outflow criteria hold below 322 K only. *)
Definition fields_below_322 (theta_level : R) : field R * field R * field R :=
  if Rlt_dec theta_level 322
  then (half_degree_field, half_degree_field, half_degree_altitude)
  else (half_degree_field, stratospheric_field, half_degree_altitude).

(** Histogram contouring that finds a closed contour where there are
    trajectories, and an open line where there are none. *)
Definition contours_of_positions (xpoints ypoints : list R)
  (bins : list R * list R) : list contour :=
  match xpoints with
  | [] => [open_line]
  | _ => [there_and_back]
  end.

(** Trajectories that reach the levels below 322 K only. *)
Definition positions_below_322 (theta : R) : list R * list R :=
  if Rlt_dec theta 322 then ([0], [1 / 4]) else ([], []).

End OutflowExamples.

Module OutflowBinary64Examples.

Import Floats.PrimFloat.
Import OutflowBinary64.

(** Two nodes one degree apart on the meridian of 10 degrees east. *)
Definition one_degree : contour := [(10, 50); (10, 51)]%float.

(** A spacing of a tenth of a nanometre: the binary64 value of [1e-13] km. *)
Definition tenth_of_nanometre : float := 0x1.c25c268497682p-44%float.

(** The distance that the formula gives for [one_degree], to the last digits. *)
Definition one_degree_km : float := 0x1.bcc79ad9adff7p+6%float.

(** Elementary functions under which the formula gives [one_degree_km] for
    every pair of nodes: an arcsine fixed at half the angle of one degree. *)
Definition fixed_arcsin (x : float) : float := (one_degree_km / 6371 / 2)%float.

End OutflowBinary64Examples.

Unset Implicit Arguments.

(** * Properties of [calc.py] *)

Module CalcProps.

Import Floats.PrimFloat Floats.SpecFloat Floats.FloatOps Floats.FloatAxioms.
Import Calc CalcSpec CalcExamples.

(** *** Masks and filters *)

Lemma select_map_filter (A : Type) (keep : A -> bool) (l : list A) :
  select (map keep l) l = filter keep l.
Proof.
  induction l as [|a l IH]; simpl; [reflexivity|].
  destruct (keep a); rewrite IH; reflexivity.
Qed.

Lemma select_length (A B : Type) (keep : A -> bool) (l : list A) (d : list B) :
  length l = length d ->
  length (select (map keep l) d) = length (filter keep l).
Proof.
  revert d; induction l as [|a l IH]; intros [|b d] Hlen; simpl in *;
    try discriminate; [reflexivity|].
  destruct (keep a); simpl; rewrite IH by lia; reflexivity.
Qed.

Lemma cell_in_spec (dates : list Z) (t : Z) : cell_in dates t = true <-> In t dates.
Proof.
  unfold cell_in; rewrite existsb_exists; split.
  - intros (x & Hx & Heq). apply Z.eqb_eq in Heq; subst; assumption.
  - intros H; exists t; split; [assumption | apply Z.eqb_refl].
Qed.

Lemma In_common_times (a b : list Z) (t : Z) :
  In t (common_times a b) <-> In t a /\ In t b.
Proof.
  unfold common_times; rewrite filter_In, cell_in_spec; tauto.
Qed.

Lemma filter_strongly_sorted (keep : Z -> bool) (l : list Z) :
  StronglySorted Z.lt l -> StronglySorted Z.lt (filter keep l).
Proof.
  induction 1 as [|a l Hs IH Hall]; simpl; [constructor|].
  destruct (keep a); [|assumption].
  constructor; [assumption|].
  rewrite Forall_forall in *; intros x Hx.
  apply filter_In in Hx; apply Hall, Hx.
Qed.

(** Two strictly increasing lists with the same elements are the same list. *)
Lemma strongly_sorted_ext (l l' : list Z) :
  StronglySorted Z.lt l -> StronglySorted Z.lt l' ->
  (forall t, In t l <-> In t l') -> l = l'.
Proof.
  intros Hl; revert l'; induction Hl as [|a l Hs IH Ha]; intros l' Hl' Hext.
  - destruct l' as [|b l']; [reflexivity|].
    exfalso; apply (proj2 (Hext b)); left; reflexivity.
  - destruct Hl' as [|b l' Hs' Hb].
    + exfalso; apply (proj1 (Hext a)); left; reflexivity.
    + rewrite Forall_forall in Ha, Hb.
      assert (a = b) as ->.
      { destruct (proj1 (Hext a) (or_introl eq_refl)) as [E|Hin]; [congruence|].
        destruct (proj2 (Hext b) (or_introl eq_refl)) as [E|Hin']; [congruence|].
        specialize (Hb _ Hin); specialize (Ha _ Hin'); lia. }
      f_equal; apply IH; [assumption|].
      intros t; split; intros Hin.
      * destruct (proj1 (Hext t) (or_intror Hin)) as [E|H']; [|assumption].
        subst t; specialize (Ha _ Hin); lia.
      * destruct (proj2 (Hext t) (or_intror Hin)) as [E|H']; [|assumption].
        subst t; specialize (Hb _ Hin); lia.
Qed.

Lemma common_times_comm (a b : list Z) :
  StronglySorted Z.lt a -> StronglySorted Z.lt b ->
  common_times b a = common_times a b.
Proof.
  intros Ha Hb; apply strongly_sorted_ext.
  - apply filter_strongly_sorted; assumption.
  - apply filter_strongly_sorted; assumption.
  - intros t; rewrite !In_common_times; tauto.
Qed.

Lemma filter_cell_in_common (a b : list Z) :
  filter (cell_in (common_times a b)) b = filter (cell_in a) b.
Proof.
  apply filter_ext_in; intros t Ht.
  apply eq_true_iff_eq; rewrite !cell_in_spec, In_common_times; tauto.
Qed.

Lemma map_cell_in_common (a b : list Z) :
  map (cell_in (common_times a b)) b = map (cell_in a) b.
Proof.
  apply map_ext_in; intros t Ht.
  apply eq_true_iff_eq; rewrite !cell_in_spec, In_common_times; tauto.
Qed.

Lemma time_restricted (c : Cube) (dates : list Z) :
  time (restricted c dates) = common_times (time c) dates.
Proof. unfold restricted; simpl; apply select_map_filter. Qed.

Lemma extract_time_restricted (c : Cube) (dates : list Z) (t : Z) :
  In t (time c) -> In t dates ->
  extract_time (cell_in dates) c = Some (restricted c dates).
Proof.
  intros Hc Hd; unfold extract_time.
  rewrite select_map_filter.
  destruct (filter (cell_in dates) (time c)) eqn:E; [|reflexivity].
  exfalso. assert (In t (filter (cell_in dates) (time c))) as Hin.
  { apply filter_In; split; [assumption | apply cell_in_spec; assumption]. }
  rewrite E in Hin; destruct Hin.
Qed.

(** *** Time alignment *)

(** C2 (amended).  For fields [a] and [b] with time coordinates that share at
    least one time, [equate_times a b] returns two fields whose time
    coordinates are both the common times.  The first is [b] restricted to
    the common times, carrying the name, the unit and the restricted data of
    [a]; the second is [b] restricted to the times in [a], with the name,
    unit and data of [b]. *)
Theorem equate_times_aligned (a b : Cube) (t : Z) :
  time_coordinate a -> time_coordinate b ->
  In t (time a) -> In t (time b) ->
  exists new_cube reference_cube,
    equate_times a b = Ok (new_cube, reference_cube) /\
    time new_cube = common_times (time a) (time b) /\
    time reference_cube = common_times (time a) (time b) /\
    reference_cube = restricted b (time a) /\
    new_cube =
      mkCube (name a) (units a) (time (restricted b (time a)))
        (data (restricted a (time b))).
Proof.
  intros [Hsa Hla] [Hsb Hlb] Hta Htb.
  unfold equate_times.
  rewrite (extract_time_restricted a (time b) t Hta Htb).
  rewrite time_restricted.
  assert (extract_time (cell_in (common_times (time a) (time b))) b
          = Some (restricted b (time a))) as ->.
  { unfold extract_time, restricted.
    rewrite map_cell_in_common, select_map_filter.
    destruct (filter (cell_in (time a)) (time b)) eqn:E; [|reflexivity].
    exfalso. assert (In t (filter (cell_in (time a)) (time b))) as Hin.
    { apply filter_In; split; [assumption | apply cell_in_spec; assumption]. }
    rewrite E in Hin; destruct Hin. }
  unfold set_data, set_units, rename; simpl.
  assert (length (select (map (cell_in (time b)) (time a)) (data a))
          = length (select (map (cell_in (time a)) (time b)) (data b))) as Hlen.
  { rewrite (select_length _ _ _ (time a) (data a) Hla).
    rewrite (select_length _ _ _ (time b) (data b) Hlb).
    change (length (common_times (time a) (time b))
            = length (common_times (time b) (time a))).
    rewrite (common_times_comm _ _ Hsa Hsb); reflexivity. }
  rewrite Hlen, Nat.eqb_refl; simpl.
  eexists _, _; split; [reflexivity|].
  assert (time (restricted b (time a)) = common_times (time a) (time b)) as Ht.
  { rewrite time_restricted; apply common_times_comm; assumption. }
  repeat split; exact Ht.
Qed.

(** The example of the specification: times [0,1,2,3] against [1,2,4]. *)
Lemma equate_times_aligned_witness :
  exists new_cube reference_cube,
    equate_times area_0123 circulation_124 = Ok (new_cube, reference_cube) /\
    time new_cube = [1; 2]%Z /\
    time reference_cube = [1; 2]%Z /\
    reference_cube = restricted circulation_124 (time area_0123) /\
    new_cube =
      mkCube "area" (unit_of "m2") [1; 2]%Z
        (data (restricted area_0123 (time circulation_124))).
Proof.
  apply (@equate_times_aligned area_0123 circulation_124 1%Z).
  - split; [repeat constructor | reflexivity].
  - split; [repeat constructor | reflexivity].
  - simpl; tauto.
  - simpl; tauto.
Defined.

(** C2 as stated fails: on the example of the specification the second
    returned field is the circulation at the common times, not the area
    restricted to the times of the circulation. *)
Lemma equate_times_second_is_reference :
  exists new_cube reference_cube,
    equate_times area_0123 circulation_124 = Ok (new_cube, reference_cube) /\
    name reference_cube = "circulation"%string /\
    reference_cube <> restricted area_0123 (time circulation_124).
Proof.
  eexists _, _; split; [vm_compute; reflexivity|].
  split; [reflexivity|].
  intros H; apply (f_equal name) in H; vm_compute in H; discriminate H.
Qed.

(** *** Fractional change *)

Lemma is_nan_Prim2SF (x : float) : is_nan x = true -> Prim2SF x = S754_nan.
Proof. intros H; unfold Prim2SF; rewrite H; reflexivity. Qed.

Lemma Prim2SF_nan_is_nan (x : float) : Prim2SF x = S754_nan -> is_nan x = true.
Proof. intros H; rewrite <- (SF2Prim_Prim2SF x), H; reflexivity. Qed.

Lemma finite_nonzero_Prim2SF (x : float) :
  is_finite x = true -> is_zero x = false ->
  exists s m e, Prim2SF x = S754_finite s m e.
Proof.
  intros Hfin Hnz.
  destruct (Prim2SF x) as [s| s | | s m e] eqn:E.
  - rewrite <- (SF2Prim_Prim2SF x), E in Hnz; destruct s; discriminate Hnz.
  - rewrite <- (SF2Prim_Prim2SF x), E in Hfin; destruct s; discriminate Hfin.
  - rewrite <- (SF2Prim_Prim2SF x), E in Hfin; discriminate Hfin.
  - exists s, m, e; reflexivity.
Qed.

(** A NaN reference gives NaN whatever the value. *)
Lemma fractional_nan (v r : float) :
  is_nan r = true -> is_nan ((v - r) / r) = true.
Proof.
  intros Hr; apply Prim2SF_nan_is_nan.
  rewrite div_spec, sub_spec, (is_nan_Prim2SF r Hr).
  destruct (Prim2SF v); reflexivity.
Qed.

(** At a finite non-zero reference the change of the reference itself is a
    zero: [+0.0] for a positive and [-0.0] for a negative reference. *)
Lemma fractional_self (r : float) :
  is_finite r = true -> is_zero r = false -> is_zero ((r - r) / r) = true.
Proof.
  intros Hfin Hnz.
  destruct (finite_nonzero_Prim2SF r Hfin Hnz) as (s & m & e & E).
  unfold is_zero; rewrite eqb_spec, div_spec, sub_spec, E.
  unfold SF64div, SF64sub, SFsub.
  assert (Hd : forall x : Z, IntDef.Z.sub x x = 0%Z) by exact Z.sub_diag.
  assert (Hm : forall x : Z, IntDef.Z.min x x = x) by exact Z.min_id.
  rewrite Hm.
  unfold shl_align; rewrite Hd; simpl.
  destruct s; reflexivity.
Qed.

Lemma getitem_zero (A : Type) (a : A) (l : list A) : getitem (a :: l) 0 = Ok a.
Proof. reflexivity. Qed.

Lemma getitem_same_length (A B : Type) (l : list A) (l' : list B) (k : Z) (v : B) :
  length l = length l' -> getitem l' k = Ok v -> exists t, getitem l k = Ok t.
Proof.
  unfold getitem; intros Hlen; rewrite Hlen.
  destruct (_ <? 0)%Z; [discriminate|].
  destruct (nth_error l' _) eqn:E; [|discriminate]; intros _.
  destruct (nth_error l _) eqn:E'; [eexists; reflexivity|].
  apply nth_error_None in E'.
  assert (nth_error l' (Z.to_nat (if (k <? 0)%Z then (k + Z.of_nat (length l'))%Z else k)) <> None)
    as Hn by congruence.
  apply nth_error_Some in Hn; lia.
Qed.

Lemma getitem_map (A B : Type) (f : A -> B) (l : list A) (k : Z) (v : A) :
  getitem l k = Ok v -> getitem (map f l) k = Ok (f v).
Proof.
  unfold getitem; rewrite length_map.
  destruct (_ <? 0)%Z; [discriminate|].
  rewrite nth_error_map.
  destruct (nth_error l _); [|discriminate].
  intros H; injection H as ->; reflexivity.
Qed.

Lemma find_filter (A : Type) (f : A -> bool) (l : list A) (v : A) :
  find f l = Some v -> exists rest, filter f l = v :: rest.
Proof.
  induction l as [|a l IH]; simpl; [discriminate|].
  destruct (f a); [intros H; injection H as ->; eexists; reflexivity | exact IH].
Qed.

Lemma find_none_forallb (l : list float) :
  find (fun v => negb (is_nan v)) l = None -> forallb is_nan l = true.
Proof.
  induction l as [|a l IH]; simpl; [reflexivity|].
  destruct (is_nan a); simpl; [exact IH | discriminate].
Qed.

Lemma find_some_forallb (l : list float) (v : float) :
  find (fun v => negb (is_nan v)) l = Some v -> forallb is_nan l = false.
Proof.
  induction l as [|a l IH]; simpl; [discriminate|].
  destruct (is_nan a); simpl; [exact IH | reflexivity].
Qed.

Lemma diff_with_reference (c s : Cube) (r : float) :
  scalar s = r -> units s = units c ->
  Ok (div_scalar (sub_scalar c s) s)
  = Ok (mkCube "unknown" (unit_div (units c) (units c)) (time c)
          (fractional_change (data c) r)).
Proof.
  intros <- Hu; unfold div_scalar, sub_scalar, fractional_change; simpl.
  rewrite map_map, Hu; reflexivity.
Qed.

(** C7 (amended).  Without a reference index [diff] takes the first
    non-missing value as reference, or the literal first value when every
    value is missing; with an index [k] it takes the value at [k].  The
    result holds [(value - reference) / reference] for every value.  A
    missing (NaN) reference gives NaN throughout, and a reference at [k] that
    is finite and not zero gives a zero at index [k]. *)
Theorem diff_fractional_change (c : Cube) (idx_0 : option Z) (r : float) :
  length (time c) = length (data c) ->
  reference_value (data c) idx_0 = Some r ->
  diff c idx_0
  = Ok (mkCube "unknown" (unit_div (units c) (units c)) (time c)
          (fractional_change (data c) r)) /\
  (is_nan r = true ->
   Forall (fun v => is_nan v = true) (fractional_change (data c) r)) /\
  (forall k, idx_0 = Some k -> is_finite r = true -> is_zero r = false ->
   exists z, getitem (fractional_change (data c) r) k = Ok z /\ is_zero z = true).
Proof.
  intros Hlen Href; split; [|split].
  - unfold diff; destruct idx_0 as [k|]; simpl in Href.
    + destruct (getitem (data c) k) as [v|] eqn:Ev; [|discriminate].
      injection Href as ->.
      destruct (getitem_same_length _ _ (time c) _ k _ Hlen Ev) as [t Et].
      unfold cube_getitem; rewrite Et, Ev; simpl.
      apply diff_with_reference; reflexivity.
    + destruct (find _ (data c)) as [v|] eqn:Ef.
      * injection Href as ->.
        rewrite (find_some_forallb _ _ Ef); simpl.
        destruct (find_filter _ _ _ _ Ef) as [rest Hrest].
        unfold cube_getitem, cube_mask; simpl.
        rewrite select_map_filter, Hrest.
        pose proof (select_length _ _ (fun v => negb (is_nan v)) (data c) (time c)
                      (eq_sym Hlen)) as Hsel.
        rewrite Hrest in Hsel.
        destruct (select _ (time c)) as [|t ts]; [discriminate Hsel|].
        rewrite !getitem_zero; simpl.
        apply diff_with_reference; reflexivity.
      * rewrite (find_none_forallb _ Ef); simpl.
        destruct c as [nm u [|t ts] [|v vs]]; simpl in *; try discriminate.
        injection Href as ->.
        exact (diff_with_reference (mkCube nm u (t :: ts) (r :: vs))
                 (mkCube nm u [t] [r]) r eq_refl eq_refl).
  - intros Hnan; unfold fractional_change; apply Forall_map, Forall_forall.
    intros v _; apply fractional_nan, Hnan.
  - intros k -> Hfin Hnz; simpl in Href.
    destruct (getitem (data c) k) as [v|] eqn:Ev; [|discriminate].
    injection Href as ->.
    eexists; split.
    + unfold fractional_change; apply getitem_map, Ev.
    + apply fractional_self; assumption.
Qed.

Lemma diff_fractional_change_witness :
  diff mass_345 (Some 1%Z)
  = Ok (mkCube "unknown" (unit_div (unit_of "kg") (unit_of "kg")) [0; 1; 2]%Z
          (fractional_change [3; 4; 5]%float 4%float)) /\
  (is_nan 4%float = true ->
   Forall (fun v => is_nan v = true) (fractional_change [3; 4; 5]%float 4%float)) /\
  (forall k, Some 1%Z = Some k -> is_finite 4%float = true -> is_zero 4%float = false ->
   exists z, getitem (fractional_change [3; 4; 5]%float 4%float) k = Ok z /\
             is_zero z = true).
Proof.
  apply (@diff_fractional_change mass_345 (Some 1%Z) 4%float);
    reflexivity.
Defined.

(** C7 as stated fails: an infinite reference value is not zero, and the
    output at its index is NaN. *)
Lemma diff_infinite_reference :
  exists out v,
    getitem (data mass_inf) 0 = Ok infinity /\
    is_zero infinity = false /\
    diff mass_inf (Some 0%Z) = Ok out /\
    getitem (data out) 0 = Ok v /\
    is_nan v = true /\ is_zero v = false.
Proof.
  eexists _, _; repeat split; vm_compute; reflexivity.
Qed.

(** *** Lookup by name *)

Lemma extract_strict_spec (cubes : list Cube) (wanted : string) :
  (forall c, extract_strict cubes wanted = Ok c <->
             filter (fun c => String.eqb (name c) wanted) cubes = [c]) /\
  (extract_strict cubes wanted = Raise ConstraintMismatchError <->
   length (filter (fun c => String.eqb (name c) wanted) cubes) <> 1%nat).
Proof.
  unfold extract_strict.
  destruct (filter _ cubes) as [|c0 [|c1 rest]]; simpl; split.
  - intros c; split; discriminate.
  - split; [intros _; lia | reflexivity].
  - intros c; split; intros H; injection H as ->; reflexivity.
  - split; [discriminate | intros H; exfalso; apply H; reflexivity].
  - intros c; split; discriminate.
  - split; [intros _; lia | reflexivity].
Qed.

(** C9 (amended).  [get_cube_by_name] tests the name against its rules in
    this order: the literal name of the density; the occurrence of
    [vorticity] in the name, whose last nine characters are then dropped;
    the occurrence of [PV], whose last two characters are then dropped; the
    literal name of the mass area anomaly ratio.  Only a name that matches
    none of them is looked up among the stored fields: the field of that
    name is returned when exactly one stored field has it, and the lookup
    fails otherwise. *)
Theorem get_cube_by_name_dispatch (cubes : list Cube) (wanted : string) :
  (wanted = "density"%string ->
   get_cube_by_name cubes wanted = density cubes) /\
  (wanted <> "density"%string -> contains "vorticity" wanted = true ->
   get_cube_by_name cubes wanted = vorticity cubes (drop_last 9 wanted)) /\
  (wanted <> "density"%string -> contains "vorticity" wanted = false ->
   contains "PV" wanted = true ->
   get_cube_by_name cubes wanted = potential_vorticity cubes (drop_last 2 wanted)) /\
  (wanted = "mass area anomaly ratio"%string ->
   get_cube_by_name cubes wanted = ratio cubes) /\
  (wanted <> "density"%string -> contains "vorticity" wanted = false ->
   contains "PV" wanted = false -> wanted <> "mass area anomaly ratio"%string ->
   get_cube_by_name cubes wanted = extract_strict cubes wanted /\
   (forall c, get_cube_by_name cubes wanted = Ok c <->
              filter (fun c => String.eqb (name c) wanted) cubes = [c]) /\
   (get_cube_by_name cubes wanted = Raise ConstraintMismatchError <->
    length (filter (fun c => String.eqb (name c) wanted) cubes) <> 1%nat)).
Proof.
  unfold get_cube_by_name.
  split; [intros ->; reflexivity|].
  split; [intros Hd Hv; apply String.eqb_neq in Hd; rewrite Hd, Hv; reflexivity|].
  split; [intros Hd Hv Hp; apply String.eqb_neq in Hd; rewrite Hd, Hv, Hp;
          reflexivity|].
  split; [intros ->; reflexivity|].
  intros Hd Hv Hp Hr. apply String.eqb_neq in Hd, Hr. rewrite Hd, Hv, Hp, Hr.
  split; [reflexivity|]. apply extract_strict_spec.
Qed.

(** C9 as stated fails: a stored field named [density] is not returned, and
    the request fails although a stored field has exactly that name. *)
Lemma get_cube_by_name_stored_density :
  extract_strict [stored_density] "density" = Ok stored_density /\
  get_cube_by_name [stored_density] "density" = Raise ConstraintMismatchError.
Proof. split; reflexivity. Qed.

(** A name outside the rules is served from the stored fields. *)
Example get_cube_by_name_stored_theta :
  get_cube_by_name [stored_density; stored_theta] "air_potential_temperature"
  = Ok stored_theta.
Proof. reflexivity. Qed.

(** ** Further properties of the time alignment *)

Lemma extract_time_none (c : Cube) (dates : list Z) :
  extract_time (cell_in dates) c = None <->
  forall t, In t (time c) -> ~ In t dates.
Proof.
  unfold extract_time. rewrite select_map_filter.
  destruct (filter (cell_in dates) (time c)) as [|t0 rest] eqn:E; split.
  - intros _ t Ht Hd.
    assert (In t (filter (cell_in dates) (time c))) as Hin
      by (apply filter_In; split; [assumption | apply cell_in_spec; assumption]).
    rewrite E in Hin; destruct Hin.
  - reflexivity.
  - discriminate.
  - intros H. exfalso.
    assert (In t0 (filter (cell_in dates) (time c))) as Hin
      by (rewrite E; left; reflexivity).
    apply filter_In in Hin. destruct Hin as [Hc Hd].
    apply (H t0 Hc), cell_in_spec, Hd.
Qed.

(** The returned pair, written out, when the fields share a time. *)
Lemma equate_times_common (a b : Cube) (t : Z) :
  time_coordinate a -> time_coordinate b ->
  In t (time a) -> In t (time b) ->
  equate_times a b
  = Ok (mkCube (name a) (units a) (common_times (time a) (time b))
          (data (restricted a (time b))),
        restricted b (time a)).
Proof.
  intros [Hsa Hla] [Hsb Hlb] Hta Htb.
  unfold equate_times.
  rewrite (extract_time_restricted a (time b) t Hta Htb).
  rewrite time_restricted.
  assert (extract_time (cell_in (common_times (time a) (time b))) b
          = Some (restricted b (time a))) as ->.
  { unfold extract_time, restricted.
    rewrite map_cell_in_common, select_map_filter.
    destruct (filter (cell_in (time a)) (time b)) eqn:E; [|reflexivity].
    exfalso. assert (In t (filter (cell_in (time a)) (time b))) as Hin.
    { apply filter_In; split; [assumption | apply cell_in_spec; assumption]. }
    rewrite E in Hin; destruct Hin. }
  unfold set_data, set_units, rename.
  assert (length (data (restricted a (time b)))
          = length (data (restricted b (time a)))) as Hlen.
  { unfold restricted; simpl.
    rewrite (select_length _ _ _ (time a) (data a) Hla).
    rewrite (select_length _ _ _ (time b) (data b) Hlb).
    change (length (common_times (time a) (time b))
            = length (common_times (time b) (time a))).
    rewrite (common_times_comm _ _ Hsa Hsb); reflexivity. }
  cbn [data name units time]. rewrite Hlen, Nat.eqb_refl. simpl bind.
  rewrite select_map_filter.
  change (filter (cell_in (time a)) (time b)) with (common_times (time b) (time a)).
  rewrite (common_times_comm _ _ Hsa Hsb). reflexivity.
Qed.

Lemma select_all (A : Type) (mask : list bool) (l : list A) :
  Forall (fun b => b = true) mask -> length mask = length l -> select mask l = l.
Proof.
  intros Hall; revert l; induction Hall as [|b mask Hb _ IH]; intros [|x l] Hlen;
    simpl in *; try discriminate; [reflexivity|].
  subst b. rewrite IH by lia. reflexivity.
Qed.

Lemma cell_in_own (dates : list Z) :
  Forall (fun b => b = true) (map (cell_in dates) dates).
Proof.
  apply Forall_map, Forall_forall. intros t Ht. apply cell_in_spec, Ht.
Qed.

(** Two fields on the same times are returned as they are. *)
Lemma equate_times_same_times (a b : Cube) :
  time a = time b -> time a <> [] ->
  length (data a) = length (time a) -> length (data b) = length (time b) ->
  equate_times a b = Ok (a, b).
Proof.
  destruct a as [na ua ta da], b as [nb ub tb db]; simpl.
  intros <- Hne Hla Hlb.
  pose proof (cell_in_own ta) as Hall.
  assert (forall (A : Type) (c : list A), length c = length ta ->
            select (map (cell_in ta) ta) c = c) as Hsel.
  { intros A c Hc. apply select_all; [exact Hall | rewrite length_map; lia]. }
  unfold equate_times, extract_time, cube_mask. cbn [time data name units].
  rewrite (Hsel _ ta eq_refl), (Hsel _ da Hla).
  destruct ta as [|t ts]; [congruence|]. cbn [time data name units].
  rewrite (Hsel _ (t :: ts) eq_refl), (Hsel _ db Hlb).
  unfold set_data, set_units, rename. cbn [time data name units].
  replace (length da =? length db)%nat with true
    by (symmetry; apply Nat.eqb_eq; lia).
  reflexivity.
Qed.

Lemma equate_times_no_common (a b : Cube) :
  (forall t, In t (time a) -> ~ In t (time b)) ->
  equate_times a b = Raise AttributeError.
Proof.
  intros Hnone. unfold equate_times.
  rewrite (proj2 (extract_time_none a (time b)) Hnone). reflexivity.
Qed.

(** X1.  The alignment of two fields with time coordinates fails, with the
    AttributeError of a missing field, exactly when they share no time. *)
Theorem equate_times_no_common_time (a b : Cube) :
  time_coordinate a -> time_coordinate b ->
  (equate_times a b = Raise AttributeError <->
   forall t, In t (time a) -> ~ In t (time b)).
Proof.
  intros Ha Hb; split.
  - intros Hraise t Hta Htb.
    rewrite (equate_times_common a b t Ha Hb Hta Htb) in Hraise.
    discriminate Hraise.
  - apply equate_times_no_common.
Qed.

Lemma equate_times_no_common_time_witness :
  equate_times mass_345 circulation_78 = Raise AttributeError.
Proof.
  apply (proj2 (equate_times_no_common_time mass_345 circulation_78
                  ltac:(split; [repeat constructor | reflexivity])
                  ltac:(split; [repeat constructor | reflexivity]))).
  intros t Ha Hb. simpl in Ha, Hb. lia.
Defined.

(** X2.  Aligning twice changes nothing: the two fields that [equate_times]
    returns have the same times, and aligning them again returns them as
    they are. *)
Theorem equate_times_idempotent (a b new_cube reference_cube : Cube) :
  time_coordinate a -> time_coordinate b ->
  equate_times a b = Ok (new_cube, reference_cube) ->
  time new_cube = time reference_cube /\
  equate_times new_cube reference_cube = Ok (new_cube, reference_cube).
Proof.
  intros Ha Hb Hrun.
  destruct (common_times (time a) (time b)) as [|t ts] eqn:E.
  - exfalso.
    assert (equate_times a b = Raise AttributeError) as Hraise; [|congruence].
    apply equate_times_no_common.
    intros t Hta Htb.
    assert (In t (common_times (time a) (time b))) as Hin
      by (apply In_common_times; split; assumption).
    rewrite E in Hin; destruct Hin.
  - assert (In t (common_times (time a) (time b))) as Hin
      by (rewrite E; left; reflexivity).
    apply In_common_times in Hin. destruct Hin as [Hta Htb].
    rewrite (equate_times_common a b t Ha Hb Hta Htb) in Hrun.
    injection Hrun as <- <-.
    destruct Ha as [Hsa Hla], Hb as [Hsb Hlb].
    assert (time (restricted b (time a)) = common_times (time a) (time b)) as Ht
      by (rewrite time_restricted; apply common_times_comm; assumption).
    split; [symmetry; exact Ht|].
    apply equate_times_same_times; cbn [time data].
    + symmetry; exact Ht.
    + rewrite E; discriminate.
    + unfold restricted, cube_mask; cbn [data].
      rewrite (select_length _ _ _ (time a) (data a) Hla). reflexivity.
    + rewrite Ht. unfold restricted, cube_mask; cbn [data].
      rewrite (select_length _ _ _ (time b) (data b) Hlb).
      change (length (common_times (time b) (time a))
              = length (common_times (time a) (time b))).
      rewrite (common_times_comm _ _ Hsa Hsb). reflexivity.
Qed.

Lemma equate_times_idempotent_witness :
  exists new_cube reference_cube,
    equate_times area_0123 circulation_124 = Ok (new_cube, reference_cube) /\
    time new_cube = time reference_cube /\
    equate_times new_cube reference_cube = Ok (new_cube, reference_cube).
Proof.
  eexists _, _. split; [vm_compute; reflexivity|].
  apply (equate_times_idempotent area_0123 circulation_124).
  - split; [repeat constructor | reflexivity].
  - split; [repeat constructor | reflexivity].
  - vm_compute; reflexivity.
Defined.

(** ** The derived fields *)

Lemma restricted_data_length (a b : Cube) :
  time_coordinate a -> time_coordinate b ->
  length (data (restricted a (time b))) = length (data (restricted b (time a))).
Proof.
  intros [Hsa Hla] [Hsb Hlb]. unfold restricted, cube_mask; cbn [data].
  rewrite (select_length _ _ _ (time a) (data a) Hla).
  rewrite (select_length _ _ _ (time b) (data b) Hlb).
  change (length (common_times (time a) (time b))
          = length (common_times (time b) (time a))).
  rewrite (common_times_comm _ _ Hsa Hsb); reflexivity.
Qed.

(** A circulation over a field [over] (the area or the mass), as [vorticity]
    and [potential_vorticity] compute it after the alignment. *)
Lemma circulation_over (over circulation : Cube) (t : Z) :
  time_coordinate over -> time_coordinate circulation ->
  In t (time over) -> In t (time circulation) ->
  (pair <- equate_times over circulation ;;
   let '(over', circulation') := pair in cube_div circulation' over')
  = Ok (mkCube "unknown" (unit_div (units circulation) (units over))
          (common_times (time over) (time circulation))
          (divide (data (restricted circulation (time over)))
                  (data (restricted over (time circulation))))).
Proof.
  intros Ho Hc Hto Htc.
  rewrite (equate_times_common over circulation t Ho Hc Hto Htc).
  cbn [bind]. unfold cube_div. cbn [data units time].
  rewrite (restricted_data_length circulation over Hc Ho), Nat.eqb_refl.
  rewrite time_restricted.
  destruct Ho as [Hso _], Hc as [Hsc _].
  rewrite (common_times_comm _ _ Hso Hsc). reflexivity.
Qed.

(** X3.  With one stored area, one stored mass and one stored circulation of
    the requested name, all with time coordinates that share a time with the
    circulation, [vorticity] is the circulation over the area and
    [potential_vorticity] the circulation over the mass, each on the times
    common to its two fields and value by value at those times. *)
Theorem circulation_ratios_on_common_times
  (cubes : list Cube) (circulation_name : string)
  (area mass circulation : Cube) (t t' : Z) :
  extract_strict cubes "area" = Ok area ->
  extract_strict cubes "mass" = Ok mass ->
  extract_strict cubes (circulation_name ++ "circulation") = Ok circulation ->
  time_coordinate area -> time_coordinate mass -> time_coordinate circulation ->
  In t (time area) -> In t (time circulation) ->
  In t' (time mass) -> In t' (time circulation) ->
  vorticity cubes circulation_name
  = Ok (mkCube "unknown" (unit_div (units circulation) (units area))
          (common_times (time area) (time circulation))
          (divide (data (restricted circulation (time area)))
                  (data (restricted area (time circulation))))) /\
  potential_vorticity cubes circulation_name
  = Ok (mkCube "unknown" (unit_div (units circulation) (units mass))
          (common_times (time mass) (time circulation))
          (divide (data (restricted circulation (time mass)))
                  (data (restricted mass (time circulation))))).
Proof.
  intros Ea Em Ec Ha Hm Hc Hta Htc Htm Htc'.
  unfold vorticity, potential_vorticity. rewrite Ea, Em, Ec. cbn [bind].
  split.
  - exact (circulation_over area circulation t Ha Hc Hta Htc).
  - exact (circulation_over mass circulation t' Hm Hc Htm Htc').
Qed.

Lemma circulation_ratios_on_common_times_witness :
  vorticity [area_0123; mass_345; circulation_124] ""
  = Ok (mkCube "unknown" (unit_div (unit_of "m2 s-1") (unit_of "m2")) [1; 2]%Z
          [21 / 11; 22 / 12]%float) /\
  potential_vorticity [area_0123; mass_345; circulation_124] ""
  = Ok (mkCube "unknown" (unit_div (unit_of "m2 s-1") (unit_of "kg")) [1; 2]%Z
          [21 / 4; 22 / 5]%float).
Proof.
  apply (circulation_ratios_on_common_times
           [area_0123; mass_345; circulation_124] ""
           area_0123 mass_345 circulation_124 1%Z 1%Z);
    try reflexivity;
    try (split; [repeat constructor | reflexivity]);
    simpl; tauto.
Defined.

(** ** Further properties of the fractional change *)

Lemma is_zero_Prim2SF (x : float) :
  is_zero x = true -> exists s, Prim2SF x = S754_zero s.
Proof.
  unfold is_zero. rewrite eqb_spec.
  destruct (Prim2SF x) as [s| s | | s m e]; intros H.
  - exists s; reflexivity.
  - destruct s; discriminate H.
  - discriminate H.
  - destruct s; discriminate H.
Qed.

(** Zero over zero is not a number. *)
Lemma zero_div_zero (x y : float) :
  is_zero x = true -> is_zero y = true -> is_nan (x / y) = true.
Proof.
  intros Hx Hy. apply Prim2SF_nan_is_nan. rewrite div_spec.
  destruct (is_zero_Prim2SF x Hx) as [s ->], (is_zero_Prim2SF y Hy) as [s' ->].
  reflexivity.
Qed.

(** A missing value stays missing whatever the reference. *)
Lemma fractional_of_nan (v r : float) :
  is_nan v = true -> is_nan ((v - r) / r) = true.
Proof.
  intros Hv; apply Prim2SF_nan_is_nan.
  rewrite div_spec, sub_spec, (is_nan_Prim2SF v Hv). reflexivity.
Qed.

Lemma finite_not_nan (x : float) : is_finite x = true -> is_nan x = false.
Proof.
  unfold is_finite. destruct (is_nan x); [discriminate | reflexivity].
Qed.

Lemma getitem_range (A : Type) (l : list A) (k : Z) :
  (getitem l k = Raise IndexError <->
   (k < - Z.of_nat (length l) \/ Z.of_nat (length l) <= k)%Z) /\
  ((- Z.of_nat (length l) <= k < Z.of_nat (length l))%Z ->
   exists v, getitem l k = Ok v).
Proof.
  unfold getitem.
  set (n := Z.of_nat (length l)).
  set (j := if (k <? 0)%Z then (k + n)%Z else k).
  assert ((k < 0 /\ j = k + n) \/ (0 <= k /\ j = k))%Z as Hj.
  { unfold j. destruct (Z.ltb_spec k 0); [left | right]; split; lia. }
  destruct (Z.ltb_spec j 0) as [Hneg|Hpos].
  - split; [split; [intros _; lia | reflexivity] | intros H; lia].
  - destruct (nth_error l (Z.to_nat j)) as [v|] eqn:E.
    + assert (nth_error l (Z.to_nat j) <> None) as Hs by congruence.
      apply nth_error_Some in Hs.
      split; [split; [discriminate | intros H; lia] | intros _; exists v; reflexivity].
    + apply nth_error_None in E.
      split; [split; [intros _; lia | reflexivity] | intros H; lia].
Qed.

(** X4.  With a reference index, [diff] fails with IndexError exactly when the
    index is out of the range of Python indexing, from minus the number of
    times to the number of times minus one. *)
Theorem diff_index_out_of_range (c : Cube) (k : Z) :
  length (time c) = length (data c) ->
  (diff c (Some k) = Raise IndexError <->
   (k < - Z.of_nat (length (data c)) \/ Z.of_nat (length (data c)) <= k)%Z).
Proof.
  intros Hlen.
  destruct (getitem_range _ (data c) k) as [Hraise Hok].
  destruct (getitem_range _ (time c) k) as [Hraise' Hok'].
  rewrite Hlen in Hraise', Hok'.
  split.
  - intros Hd.
    destruct (Z_lt_dec k (- Z.of_nat (length (data c)))) as [|Hlo]; [left; assumption|].
    destruct (Z_le_dec (Z.of_nat (length (data c))) k) as [|Hhi]; [right; assumption|].
    exfalso.
    destruct (Hok ltac:(lia)) as [v Ev], (Hok' ltac:(lia)) as [t Et].
    unfold diff, cube_getitem in Hd. rewrite Et, Ev in Hd. discriminate Hd.
  - intros Hout. apply Hraise' in Hout.
    unfold diff, cube_getitem. rewrite Hout. reflexivity.
Qed.

Lemma diff_index_out_of_range_witness :
  diff mass_345 (Some 3%Z) = Raise IndexError.
Proof.
  apply (proj2 (diff_index_out_of_range mass_345 3%Z eq_refl)).
  right. simpl. lia.
Defined.

Lemma diff_data (c out : Cube) (idx_0 : option Z) :
  diff c idx_0 = Ok out ->
  exists r, out = mkCube "unknown" (unit_div (units c) (units c)) (time c)
                    (fractional_change (data c) r).
Proof.
  unfold diff.
  destruct (match idx_0 with
            | Some i => cube_getitem c i
            | None => _
            end) as [s|e] eqn:E; [|discriminate].
  cbn [bind]. intros H; injection H as <-.
  exists (scalar s).
  assert (units s = units c) as Hu.
  { unfold cube_getitem, cube_mask in E.
    destruct idx_0 as [i|];
      [|destruct (negb (forallb is_nan (data c)))];
      cbn [time data name units] in E;
      repeat match type of E with
             | bind ?m _ = _ => destruct m; cbn [bind] in E; [|discriminate E]
             end;
      injection E as <-; reflexivity. }
  unfold div_scalar, sub_scalar, fractional_change; cbn [time data name units].
  rewrite map_map, Hu. reflexivity.
Qed.

(** X5.  [diff] keeps the times and passes missing values through: every value
    that is NaN in the field is NaN in the result, whatever the reference. *)
Theorem diff_keeps_missing (c out : Cube) (idx_0 : option Z) :
  diff c idx_0 = Ok out ->
  time out = time c /\
  length (data out) = length (data c) /\
  forall i v, nth_error (data c) i = Some v -> is_nan v = true ->
    exists w, nth_error (data out) i = Some w /\ is_nan w = true.
Proof.
  intros Hrun. destruct (diff_data c out idx_0 Hrun) as [r ->].
  cbn [time data]. unfold fractional_change.
  split; [reflexivity|]. split; [apply length_map|].
  intros i v Hv Hnan. rewrite nth_error_map, Hv. cbn.
  eexists; split; [reflexivity | apply fractional_of_nan, Hnan].
Qed.

Lemma diff_keeps_missing_witness :
  exists out w,
    diff mass_gap None = Ok out /\
    time out = [0; 1; 2]%Z /\
    nth_error (data out) 0 = Some w /\ is_nan w = true.
Proof.
  destruct (diff mass_gap None) as [out|e] eqn:E; [|vm_compute in E; discriminate E].
  destruct (diff_keeps_missing mass_gap out None E) as (Ht & _ & Hnan).
  destruct (Hnan 0%nat nan eq_refl eq_refl) as (w & Hw & Hwn).
  exists out, w. repeat split; assumption.
Defined.

Lemma diff_first_value (c : Cube) (v : float) :
  length (time c) = length (data c) ->
  hd_error (data c) = Some v -> is_nan v = false ->
  diff c None
  = Ok (mkCube "unknown" (unit_div (units c) (units c)) (time c)
          (fractional_change (data c) v)).
Proof.
  destruct c as [nm u [|t ts] [|v0 vs]]; cbn [time data hd_error];
    intros Hlen Hv Hnan; try discriminate.
  injection Hv as ->.
  unfold diff, cube_mask, cube_getitem. cbn [time data name units forallb map select].
  rewrite Hnan. cbn [andb negb select].
  rewrite !getitem_zero. cbn [bind].
  exact (diff_with_reference (mkCube nm u (t :: ts) (v :: vs))
           (mkCube nm u [t] [v]) v eq_refl eq_refl).
Qed.

(** X6.  When the first mass and the first area are finite and not zero, the
    mass area anomaly ratio exists on the times of the fields and its first
    value is NaN: both fractional changes are zero at the reference time. *)
Theorem ratio_undefined_at_reference
  (cubes : list Cube) (mass area : Cube) (m0 a0 : float) :
  extract_strict cubes "mass" = Ok mass ->
  extract_strict cubes "area" = Ok area ->
  length (time mass) = length (data mass) ->
  length (time area) = length (data area) ->
  time mass = time area ->
  hd_error (data mass) = Some m0 -> hd_error (data area) = Some a0 ->
  is_finite m0 = true -> is_zero m0 = false ->
  is_finite a0 = true -> is_zero a0 = false ->
  exists out v,
    ratio cubes = Ok out /\
    time out = time mass /\
    length (data out) = length (data mass) /\
    getitem (data out) 0 = Ok v /\ is_nan v = true.
Proof.
  intros Em Ea Hlm Hla Ht Hm Ha Hmf Hmz Haf Haz.
  unfold ratio. rewrite Em, Ea. cbn [bind].
  rewrite (diff_first_value mass m0 Hlm Hm (finite_not_nan m0 Hmf)).
  rewrite (diff_first_value area a0 Hla Ha (finite_not_nan a0 Haf)).
  cbn [bind]. unfold cube_div, fractional_change. cbn [time data name units].
  rewrite !length_map.
  replace (length (data mass) =? length (data area))%nat with true
    by (symmetry; apply Nat.eqb_eq; rewrite <- Hlm, <- Hla, Ht; reflexivity).
  destruct (data mass) as [|m ms]; [discriminate Hm|]. injection Hm as ->.
  destruct (data area) as [|a as_] eqn:Eda; [discriminate Ha|]. injection Ha as ->.
  eexists _, _. split; [reflexivity|]. cbn [time data map divide].
  split; [reflexivity|]. split.
  - simpl in Hlm, Hla. rewrite Ht in Hlm. 
    assert (length ms = length as_) as Hl by lia.
    clear - Hl. simpl. f_equal. revert as_ Hl.
    induction ms as [|x ms IH]; intros [|y as_] Hl; simpl in *; try discriminate;
      [reflexivity|]. f_equal. apply IH. lia.
  - split; [apply getitem_zero|].
    apply zero_div_zero; apply fractional_self; assumption.
Qed.

Lemma ratio_undefined_at_reference_witness :
  exists out v,
    ratio [area_0123; mass_3456] = Ok out /\
    time out = [0; 1; 2; 3]%Z /\
    length (data out) = 4%nat /\
    getitem (data out) 0 = Ok v /\ is_nan v = true.
Proof.
  apply (ratio_undefined_at_reference [area_0123; mass_3456] mass_3456 area_0123
           3%float 10%float); reflexivity.
Defined.

(** ** Names of derived fields *)

Lemma prefix_refl (s : string) : prefix s s = true.
Proof.
  induction s as [|a s IH]; simpl; [reflexivity|].
  destruct (ascii_dec a a) as [_|Hn]; [exact IH | contradiction].
Qed.

Lemma contains_eq (sub s : string) :
  contains sub s
  = prefix sub s ||
    match s with
    | EmptyString => false
    | String _ s' => contains sub s'
    end.
Proof. destruct s; reflexivity. Qed.

Lemma contains_suffix (sub p : string) : contains sub (p ++ sub) = true.
Proof.
  induction p as [|a p IH].
  - change (contains sub sub = true).
    rewrite contains_eq, prefix_refl. reflexivity.
  - change (String a p ++ sub)%string with (String a (p ++ sub)).
    rewrite contains_eq, IH. apply orb_true_r.
Qed.

Lemma length_append (p s : string) :
  String.length (p ++ s) = (String.length p + String.length s)%nat.
Proof. induction p as [|a p IH]; simpl; [reflexivity | rewrite IH; reflexivity]. Qed.

Lemma substring_append (p s : string) :
  substring 0 (String.length p) (p ++ s) = p.
Proof.
  induction p as [|a p IH]; simpl.
  - destruct s; reflexivity.
  - rewrite IH; reflexivity.
Qed.

Lemma drop_last_append (p s : string) :
  drop_last (String.length s) (p ++ s) = p.
Proof.
  unfold drop_last. rewrite length_append.
  replace (String.length p + String.length s - String.length s)%nat
    with (String.length p) by lia.
  apply substring_append.
Qed.

(** X7.  A name made of a prefix and the word [vorticity] is served by
    [vorticity] with that prefix as the name of the circulation, so that
    the field [prefix ++ circulation] is the one looked up; a name made of a
    prefix and [PV], in which [vorticity] does not occur, is served by
    [potential_vorticity] with that prefix. *)
Theorem get_cube_by_name_suffix (cubes : list Cube) (circulation_name : string) :
  get_cube_by_name cubes (circulation_name ++ "vorticity")
  = vorticity cubes circulation_name /\
  (contains "vorticity" (circulation_name ++ "PV") = false ->
   get_cube_by_name cubes (circulation_name ++ "PV")
   = potential_vorticity cubes circulation_name).
Proof.
  unfold get_cube_by_name. split.
  - assert (String.eqb (circulation_name ++ "vorticity") "density" = false) as ->.
    { apply String.eqb_neq. intros H. apply (f_equal String.length) in H.
      rewrite length_append in H. simpl in H. lia. }
    rewrite contains_suffix.
    pose proof (drop_last_append circulation_name "vorticity") as Hd.
    cbn [String.length] in Hd. rewrite Hd. reflexivity.
  - intros Hv.
    assert (String.eqb (circulation_name ++ "PV") "density" = false) as ->.
    { apply String.eqb_neq. intros H.
      assert (contains "PV" (circulation_name ++ "PV") = true) as Hc
        by apply contains_suffix.
      rewrite H in Hc. vm_compute in Hc. discriminate Hc. }
    rewrite Hv, contains_suffix.
    pose proof (drop_last_append circulation_name "PV") as Hd.
    cbn [String.length] in Hd. rewrite Hd. reflexivity.
Qed.

Lemma get_cube_by_name_suffix_witness :
  get_cube_by_name [area_0123; mass_345; relative_circulation]
    ("relative_" ++ "vorticity")
  = vorticity [area_0123; mass_345; relative_circulation] "relative_" /\
  get_cube_by_name [area_0123; mass_345; relative_circulation]
    ("relative_" ++ "PV")
  = potential_vorticity [area_0123; mass_345; relative_circulation] "relative_".
Proof.
  destruct (get_cube_by_name_suffix
              [area_0123; mass_345; relative_circulation] "relative_")
    as [Hv Hp].
  split; [exact Hv | apply Hp; reflexivity].
Defined.

(** The names [relative_vorticity] and [relative_PV] on stored fields
    [relative_circulation], [area] and [mass]. *)
Example get_cube_by_name_relative :
  get_cube_by_name [area_0123; mass_345; relative_circulation] "relative_vorticity"
  = Ok (mkCube "unknown" (unit_div (unit_of "m2 s-1") (unit_of "m2")) [1; 2]%Z
          [21 / 11; 22 / 12]%float) /\
  get_cube_by_name [area_0123; mass_345; relative_circulation] "relative_PV"
  = Ok (mkCube "unknown" (unit_div (unit_of "m2 s-1") (unit_of "kg")) [1; 2]%Z
          [21 / 4; 22 / 5]%float).
Proof. split; reflexivity. Qed.

End CalcProps.

(** * Properties of [outflow.py] *)

Module OutflowProps.

Import Outflow OutflowSpec OutflowExamples.
Open Scope R_scope.

(** ** Great-circle distance *)

Lemma PI_gt_3 : 3 < PI.
Proof. pose proof PI2_3_2; lra. Qed.

Lemma asin_ge_1 (x : R) : 1 <= x -> asin x = PI / 2.
Proof.
  intros Hx; unfold asin.
  destruct (Rle_dec x (-1)); [lra|].
  destruct (Rle_dec 1 x); [reflexivity | lra].
Qed.

Lemma asin_nonneg (x : R) : 0 <= x -> 0 <= asin x.
Proof.
  intros Hx. destruct (Rle_dec 1 x) as [H1|H1].
  - rewrite (asin_ge_1 x H1). pose proof PI_RGT_0; lra.
  - destruct (Rle_dec 0 (asin x)) as [|Hneg]; [assumption|].
    exfalso. pose proof (asin_bound x) as [Hlo _].
    pose proof PI_RGT_0.
    assert (sin (asin x) < 0) as Hs by (apply sin_lt_0_var; lra).
    rewrite sin_asin in Hs; lra.
Qed.

Lemma Rabs_sin_le (x : R) : Rabs (sin x) <= Rabs x.
Proof.
  assert (forall y, 0 <= y -> Rabs (sin y) <= y) as Hpos.
  { intros y [Hy| <-].
    - apply Rabs_le; split.
      + destruct (Rle_dec y PI).
        * pose proof (sin_ge_0 y); lra.
        * pose proof (SIN_bound y); pose proof PI_gt_3; lra.
      + pose proof (sin_lt_x y Hy); lra.
    - rewrite sin_0, Rabs_R0; lra. }
  destruct (Rle_dec 0 x) as [H|H].
  - rewrite (Rabs_right x) by lra; apply Hpos; assumption.
  - rewrite (Rabs_left x) by lra.
    rewrite <- (Rabs_Ropp (sin x)), <- sin_neg; apply Hpos; lra.
Qed.

Lemma sin_ge_third (z : R) : 0 <= z <= 2 -> z / 3 <= sin z.
Proof.
  intros [H0 H2].
  pose proof PI_gt_3.
  destruct (SIN z H0 ltac:(lra)) as [Hlb _].
  unfold sin_lb, sin_approx, sin_term in Hlb; simpl in Hlb.
  unfold Rdiv in Hlb.
  assert (0 <= z * z <= 4) as Hu by nra.
  set (u := z * z) in *.
  assert (z / 3 <= z * (1 - u / 6 + u * u / 120 - u * u * u / 5040)) as Hp.
  { assert (1 / 3 <= 1 - u / 6 + u * u / 120 - u * u * u / 5040) by nra.
    nra. }
  eapply Rle_trans; [exact Hp|].
  eapply Rle_trans; [|exact Hlb].
  apply Req_le; unfold u; field.
Qed.

Lemma asin_le_3x (y : R) : 0 <= y -> asin y <= 3 * y.
Proof.
  intros Hy. destruct (Rle_dec 1 y) as [H1|H1].
  - rewrite (asin_ge_1 y H1). pose proof PI_4; lra.
  - pose proof (asin_nonneg y Hy) as Hz.
    pose proof (asin_bound y) as [_ Hhi].
    pose proof PI_4.
    pose proof (sin_ge_third (asin y) ltac:(lra)) as Hs.
    rewrite sin_asin in Hs by lra. lra.
Qed.

Lemma haversine_eq (x1 x2 : point) :
  haversine x1 x2 = 2 * asin (sqrt (hav_a x1 x2)) * 6371.
Proof. reflexivity. Qed.

Lemma haversine_nonneg (x1 x2 : point) : 0 <= haversine x1 x2.
Proof.
  rewrite haversine_eq.
  pose proof (asin_nonneg _ (sqrt_pos (hav_a x1 x2))); lra.
Qed.

Lemma haversine_refl (p : point) : haversine p p = 0.
Proof.
  rewrite haversine_eq; unfold hav_a.
  rewrite !Rminus_diag.
  replace (0 / 2) with 0 by field.
  rewrite sin_0, Rsqr_0, Rmult_0_r, Rplus_0_r, sqrt_0, asin_0; ring.
Qed.

Lemma haversine_sym (x1 x2 : point) : haversine x1 x2 = haversine x2 x1.
Proof.
  rewrite !haversine_eq.
  assert (hav_a x1 x2 = hav_a x2 x1) as ->; [|reflexivity].
  unfold hav_a.
  replace ((deg2rad (snd x1) - deg2rad (snd x2)) / 2)
    with (- ((deg2rad (snd x2) - deg2rad (snd x1)) / 2)) by field.
  replace ((deg2rad (fst x1) - deg2rad (fst x2)) / 2)
    with (- ((deg2rad (fst x2) - deg2rad (fst x1)) / 2)) by field.
  rewrite !sin_neg, <- !Rsqr_neg; ring.
Qed.

(** Along a meridian the distance is the arc of the latitude difference. *)
Lemma haversine_meridian (lon lat1 lat2 : R) :
  Rabs (lat2 - lat1) <= 180 ->
  haversine (lon, lat1) (lon, lat2) = 6371 * (PI / 180) * Rabs (lat2 - lat1).
Proof.
  intros Hd. rewrite haversine_eq; unfold hav_a; simpl.
  rewrite Rminus_diag.
  replace (0 / 2) with 0 by field.
  rewrite sin_0, Rsqr_0, Rmult_0_r, Rplus_0_r, sqrt_Rsqr_abs.
  pose proof PI_RGT_0 as Hpi.
  assert (Rabs (sin ((deg2rad lat2 - deg2rad lat1) / 2))
          = sin (PI / 360 * Rabs (lat2 - lat1))) as ->.
  { unfold deg2rad. unfold Rabs at 2. destruct (Rcase_abs (lat2 - lat1)) as [Hn|Hp].
    - rewrite <- (Rabs_Ropp (sin _)), <- sin_neg.
      replace (- ((lat2 * (PI / 180) - lat1 * (PI / 180)) / 2))
        with (PI / 360 * - (lat2 - lat1)) by field.
      apply Rabs_right, Rle_ge, sin_ge_0; [nra|].
      rewrite Rabs_left in Hd by assumption. nra.
    - replace ((lat2 * (PI / 180) - lat1 * (PI / 180)) / 2)
        with (PI / 360 * (lat2 - lat1)) by field.
      apply Rabs_right, Rle_ge, sin_ge_0; [nra|].
      rewrite Rabs_right in Hd by assumption. nra. }
  pose proof (Rabs_pos (lat2 - lat1)).
  rewrite asin_sin by (split; nra).
  field.
Qed.

(** The distance is bounded by the coordinate differences. *)
Lemma km_bound_pos : 0 < km_per_degree_bound.
Proof. unfold km_per_degree_bound; pose proof PI_RGT_0; lra. Qed.

Lemma haversine_le_taxicab (p q : point) :
  haversine p q <= km_per_degree_bound * taxicab p q.
Proof.
  rewrite haversine_eq.
  set (u := sin ((deg2rad (snd q) - deg2rad (snd p)) / 2)).
  set (v := sin ((deg2rad (fst q) - deg2rad (fst p)) / 2)).
  assert (hav_a p q <= (Rabs u + Rabs v)²) as Ha.
  { unfold hav_a; fold u v.
    pose proof (COS_bound (deg2rad (snd p))) as [? ?].
    pose proof (COS_bound (deg2rad (snd q))) as [? ?].
    assert (cos (deg2rad (snd p)) * cos (deg2rad (snd q)) <= 1) by nra.
    pose proof (Rle_0_sqr v). pose proof (Rle_0_sqr u).
    pose proof (Rabs_pos u). pose proof (Rabs_pos v).
    rewrite (Rsqr_abs u), (Rsqr_abs v) in *.
    unfold Rsqr in *. nra. }
  assert (sqrt (hav_a p q) <= Rabs u + Rabs v) as Hs.
  { rewrite <- (sqrt_Rsqr (Rabs u + Rabs v)).
    - apply sqrt_le_1_alt, Ha.
    - pose proof (Rabs_pos u); pose proof (Rabs_pos v); lra. }
  pose proof (asin_le_3x _ (sqrt_pos (hav_a p q))) as Has.
  assert (Rabs u <= PI / 360 * Rabs (snd q - snd p)) as Hu.
  { unfold u. eapply Rle_trans; [apply Rabs_sin_le|].
    unfold deg2rad.
    replace ((snd q * (PI / 180) - snd p * (PI / 180)) / 2)
      with (PI / 360 * (snd q - snd p)) by field.
    rewrite Rabs_mult, (Rabs_right (PI / 360)); [lra|].
    pose proof PI_RGT_0; lra. }
  assert (Rabs v <= PI / 360 * Rabs (fst q - fst p)) as Hv.
  { unfold v. eapply Rle_trans; [apply Rabs_sin_le|].
    unfold deg2rad.
    replace ((fst q * (PI / 180) - fst p * (PI / 180)) / 2)
      with (PI / 360 * (fst q - fst p)) by field.
    rewrite Rabs_mult, (Rabs_right (PI / 360)); [lra|].
    pose proof PI_RGT_0; lra. }
  unfold km_per_degree_bound, taxicab. lra.
Qed.

(** ** The resampling loop, pass by pass

    The array is split at the index of the pass: the nodes before it, the
    node at it, and the nodes after it. *)

Lemma nth_split (pre : contour) (p : point) (post : contour) :
  nth (length pre) (pre ++ p :: post) origin = p.
Proof. rewrite app_nth2, Nat.sub_diag by lia; reflexivity. Qed.

Lemma nth_split_next (pre : contour) (p q : point) (post : contour) :
  nth (length pre + 1) (pre ++ p :: q :: post) origin = q.
Proof.
  rewrite app_nth2 by lia.
  replace (length pre + 1 - length pre)%nat with 1%nat by lia; reflexivity.
Qed.

Lemma nth_first (pre : contour) (p : point) :
  nth 0 (pre ++ [p]) origin = hd p pre.
Proof. destruct pre; reflexivity. Qed.

Lemma np_insert_split (pre : contour) (p : point) (post : contour) (row : point) :
  np_insert (pre ++ p :: post) (length pre + 1) row = (pre ++ [p]) ++ row :: post.
Proof.
  unfold np_insert.
  replace (pre ++ p :: post) with ((pre ++ [p]) ++ post)
    by (rewrite <- app_assoc; reflexivity).
  replace (length pre + 1)%nat with (length (pre ++ [p]) + 0)%nat
    by (rewrite length_app; simpl; lia).
  rewrite firstn_app_2, skipn_app.
  rewrite skipn_all2 by lia.
  replace (length (pre ++ [p]) + 0 - length (pre ++ [p]))%nat with 0%nat by lia.
  simpl; rewrite app_nil_r; reflexivity.
Qed.

(** A pass inside the array looks at the node and its successor. *)
Lemma circuit_step_inside (pre : contour) (p q : point) (post : contour)
  (resolution : R) :
  circuit_step (pre ++ p :: q :: post) (length pre) resolution =
  if Rgt_dec (haversine p q) resolution
  then (pre ++ [p]) ++ interpolate p q resolution :: q :: post
  else pre ++ p :: q :: post.
Proof.
  unfold circuit_step, next_insertion.
  rewrite Nat.mod_small by (rewrite length_app; simpl; lia).
  rewrite nth_split, nth_split_next.
  destruct (Rgt_dec (haversine p q) resolution); [|reflexivity].
  rewrite np_insert_split; reflexivity.
Qed.

(** The pass at the last node looks at the first node and inserts at index 0. *)
Lemma circuit_step_last (pre : contour) (p : point) (resolution : R) :
  circuit_step (pre ++ [p]) (length pre) resolution =
  if Rgt_dec (haversine p (hd p pre)) resolution
  then interpolate p (hd p pre) resolution :: pre ++ [p]
  else pre ++ [p].
Proof.
  unfold circuit_step, next_insertion.
  replace (length (pre ++ [p])) with (length pre + 1)%nat
    by (rewrite length_app; reflexivity).
  rewrite Nat.Div0.mod_same, nth_split, nth_first.
  destruct (Rgt_dec (haversine p (hd p pre)) resolution); reflexivity.
Qed.

Lemma circuit_loop_exit (fuel n : nat) (points : contour) (resolution : R) :
  (length points <= n)%nat ->
  circuit_loop (S fuel) n points resolution = Some points.
Proof.
  intros Hn; simpl.
  destruct (Nat.ltb_spec n (length points)); [lia | reflexivity].
Qed.

Lemma circuit_loop_inside (fuel : nat) (pre : contour) (p q : point)
  (post : contour) (resolution : R) :
  circuit_loop (S fuel) (length pre) (pre ++ p :: q :: post) resolution =
  if Rgt_dec (haversine p q) resolution
  then circuit_loop fuel (length (pre ++ [p]))
         ((pre ++ [p]) ++ interpolate p q resolution :: q :: post) resolution
  else circuit_loop fuel (length (pre ++ [p])) ((pre ++ [p]) ++ q :: post) resolution.
Proof.
  simpl circuit_loop.
  destruct (Nat.ltb_spec (length pre) (length (pre ++ p :: q :: post))) as [_|H];
    [|rewrite length_app in H; simpl in H; lia].
  rewrite circuit_step_inside.
  replace (length pre + 1)%nat with (length (pre ++ [p]))
    by (rewrite length_app; reflexivity).
  destruct (Rgt_dec (haversine p q) resolution); [reflexivity|].
  rewrite <- app_assoc; reflexivity.
Qed.

Lemma circuit_loop_last (fuel : nat) (pre : contour) (p : point) (resolution : R) :
  circuit_loop (S fuel) (length pre) (pre ++ [p]) resolution =
  if Rgt_dec (haversine p (hd p pre)) resolution
  then circuit_loop fuel (length (interpolate p (hd p pre) resolution :: pre))
         ((interpolate p (hd p pre) resolution :: pre) ++ [p]) resolution
  else match fuel with
       | O => None
       | S _ => Some (pre ++ [p])
       end.
Proof.
  simpl circuit_loop.
  destruct (Nat.ltb_spec (length pre) (length (pre ++ [p]))) as [_|H];
    [|rewrite length_app in H; simpl in H; lia].
  rewrite circuit_step_last.
  destruct (Rgt_dec (haversine p (hd p pre)) resolution).
  - replace (length pre + 1)%nat with (S (length pre)) by lia; reflexivity.
  - destruct fuel as [|fuel]; [reflexivity|].
    apply circuit_loop_exit; rewrite length_app; simpl; lia.
Qed.
(** ** Termination when the closing edge is within the resolution *)

Lemma hd_snoc (x p : point) (pre : contour) : hd x (pre ++ [p]) = hd p pre.
Proof. destruct pre; reflexivity. Qed.

Lemma div_lt_1 (a b : R) : 0 < b -> a < b -> a / b < 1.
Proof.
  intros Hb Hab; apply (Rmult_lt_reg_r b); [assumption|].
  unfold Rdiv; rewrite Rmult_assoc, Rinv_l; lra.
Qed.

Lemma div_ge_1 (a b : R) : 0 < b -> b <= a -> 1 <= a / b.
Proof.
  intros Hb Hab; apply (Rmult_le_reg_r b); [assumption|].
  unfold Rdiv; rewrite Rmult_assoc, Rinv_l; lra.
Qed.

Lemma div_lt_mult (a b c : R) : 0 < b -> a / b < c -> a < b * c.
Proof.
  intros Hb H; apply (Rmult_lt_compat_r b) in H; [|assumption].
  unfold Rdiv in H; rewrite Rmult_assoc, Rinv_l in H; lra.
Qed.

Lemma taxicab_interpolate (p q : point) (resolution : R) :
  0 < resolution -> haversine p q > resolution ->
  taxicab (interpolate p q resolution) q
  = (1 - resolution / haversine p q) * taxicab p q.
Proof.
  intros Hr Hd. unfold taxicab, interpolate; simpl.
  set (t := resolution / haversine p q).
  assert (0 <= 1 - t) as Ht.
  { unfold t. assert (resolution / haversine p q < 1); [|lra].
    apply div_lt_1; lra. }
  replace (fst q - (fst p + t * (fst q - fst p))) with ((1 - t) * (fst q - fst p))
    by ring.
  replace (snd q - (snd p + t * (snd q - snd p))) with ((1 - t) * (snd q - snd p))
    by ring.
  rewrite !Rabs_mult, (Rabs_right (1 - t)) by lra; ring.
Qed.

(** Every insertion inside the array brings the current node closer to its
    successor by a fixed amount. *)
Lemma remaining_shrinks (p q : point) (resolution : R) :
  0 < resolution -> haversine p q > resolution ->
  km_per_degree_bound * taxicab (interpolate p q resolution) q
  <= km_per_degree_bound * taxicab p q - resolution.
Proof.
  intros Hr Hd. rewrite taxicab_interpolate by assumption.
  pose proof (haversine_le_taxicab p q) as Hle.
  set (d := haversine p q) in *. set (T := km_per_degree_bound * taxicab p q) in *.
  replace (km_per_degree_bound * ((1 - resolution / d) * taxicab p q))
    with (T - resolution * (T / d)) by (unfold T; field; lra).
  assert (1 <= T / d) by (apply div_ge_1; lra).
  nra.
Qed.

Section Terminates.

Variable resolution : R.
Hypothesis resolution_pos : 0 < resolution.

Lemma loop_terminates_split (post pre : contour) (p : point) :
  haversine (last (p :: post) origin) (hd p pre) <= resolution ->
  exists fuel out,
    circuit_loop fuel (length pre) (pre ++ p :: post) resolution = Some out.
Proof.
  revert pre p; induction post as [|q post IH]; intros pre p Hwrap.
  - exists 2%nat, (pre ++ [p]). rewrite circuit_loop_last.
    simpl in Hwrap.
    destruct (Rgt_dec (haversine p (hd p pre)) resolution); [lra | reflexivity].
  - destruct (INR_unbounded (km_per_degree_bound * taxicab p q / resolution)) as [m Hm].
    assert (km_per_degree_bound * taxicab p q <= resolution * INR m) as Hb.
    { apply div_lt_mult in Hm; lra. }
    clear Hm. revert pre p Hwrap Hb.
    induction m as [|m IHm]; intros pre p Hwrap Hb.
    + (* the successor is at distance zero *)
      assert (haversine p q <= resolution) as Hd.
      { pose proof (haversine_le_taxicab p q). simpl in Hb. lra. }
      destruct (IH (pre ++ [p]) q) as (fuel & out & Hrun).
      { rewrite hd_snoc; exact Hwrap. }
      exists (S fuel), out. rewrite circuit_loop_inside.
      destruct (Rgt_dec (haversine p q) resolution); [lra | exact Hrun].
    + destruct (Rgt_dec (haversine p q) resolution) as [Hd|Hd].
      * destruct (IHm (pre ++ [p]) (interpolate p q resolution))
          as (fuel & out & Hrun).
        { rewrite hd_snoc; exact Hwrap. }
        { pose proof (remaining_shrinks p q resolution resolution_pos Hd).
          rewrite S_INR in Hb. lra. }
        exists (S fuel), out. rewrite circuit_loop_inside.
        destruct (Rgt_dec (haversine p q) resolution); [exact Hrun | lra].
      * destruct (IH (pre ++ [p]) q) as (fuel & out & Hrun).
        { rewrite hd_snoc; exact Hwrap. }
        exists (S fuel), out. rewrite circuit_loop_inside.
        destruct (Rgt_dec (haversine p q) resolution); [lra | exact Hrun].
Qed.

End Terminates.
(** ** What the loop establishes when the closing edge is within the resolution *)

Lemma subseq_refl (l : contour) : subseq l l.
Proof. induction l; constructor; assumption. Qed.

Lemma subseq_length (l l' : contour) : subseq l l' -> (length l <= length l')%nat.
Proof. induction 1; simpl; lia. Qed.

Lemma subseq_app_keep (pre l l' : contour) :
  subseq l l' -> subseq (pre ++ l) (pre ++ l').
Proof. intros H; induction pre; simpl; [assumption | constructor; assumption]. Qed.

Lemma last_app_cons (pre : contour) (p : point) (l : contour) :
  last (pre ++ p :: l) origin = last (p :: l) origin.
Proof.
  induction pre as [|a pre IH]; [reflexivity|].
  simpl app. rewrite <- IH.
  destruct (pre ++ p :: l) eqn:E; [destruct pre; discriminate | reflexivity].
Qed.


Section Invariants.

Variable resolution : R.

Lemma loop_keeps_split (fuel : nat) :
  forall (pre : contour) (p : point) (post out : contour),
    circuit_loop fuel (length pre) (pre ++ p :: post) resolution = Some out ->
    haversine (last (p :: post) origin) (hd p pre) <= resolution ->
    exists tail,
      out = (pre ++ [p]) ++ tail /\ subseq post tail /\
      last (p :: tail) origin = last (p :: post) origin /\
      resampled resolution (p :: post) (p :: tail).
Proof.
  induction fuel as [|fuel IH]; intros pre p post out Hrun Hwrap;
    [discriminate|].
  destruct post as [|q post].
  - rewrite circuit_loop_last in Hrun. simpl in Hwrap.
    destruct (Rgt_dec (haversine p (hd p pre)) resolution); [lra|].
    destruct fuel; [discriminate|]. injection Hrun as <-.
    exists []. rewrite app_nil_r.
    repeat split; constructor.
  - rewrite circuit_loop_inside in Hrun.
    destruct (Rgt_dec (haversine p q) resolution) as [Hd|Hd].
    + apply IH in Hrun; [|rewrite hd_snoc; exact Hwrap].
      destruct Hrun as (tail & -> & Hsub & Hlast & Hres).
      exists (interpolate p q resolution :: tail).
      rewrite <- app_assoc. repeat split.
      * constructor; assumption.
      * exact Hlast.
      * apply resampled_far; assumption.
    + apply IH in Hrun; [|rewrite hd_snoc; exact Hwrap].
      destruct Hrun as (tail & -> & Hsub & Hlast & Hres).
      exists (q :: tail).
      rewrite <- app_assoc. repeat split.
      * constructor; assumption.
      * exact Hlast.
      * apply resampled_near; [lra | assumption].
Qed.

End Invariants.

Lemma next_insertion_fine (resolution : R) (points : contour) (n : nat) :
  fine resolution points -> (n < length points)%nat ->
  next_insertion points n resolution = None.
Proof.
  intros Hfine Hn. unfold next_insertion.
  destruct (Rgt_dec _ resolution) as [Hgt|]; [|reflexivity].
  specialize (Hfine n Hn). lra.
Qed.

Lemma circuit_loop_fine (resolution : R) (points : contour) :
  fine resolution points ->
  forall fuel n, (length points - n < fuel)%nat ->
    circuit_loop fuel n points resolution = Some points.
Proof.
  intros Hfine. induction fuel as [|fuel IH]; intros n Hfuel; [lia|].
  cbn [circuit_loop].
  destruct (Nat.ltb_spec n (length points)) as [Hn|Hn]; [|reflexivity].
  unfold circuit_step. rewrite (next_insertion_fine _ _ _ Hfine Hn).
  apply IH. lia.
Qed.




(** ** The loop over array objects *)

Lemma deref_alloc_new (h : store) (arr : contour) :
  deref (h ++ [arr]) (length h) = arr.
Proof. unfold deref; rewrite app_nth2, Nat.sub_diag by lia; reflexivity. Qed.

Lemma deref_app_old (h fresh : store) (r : ref) :
  (r < length h)%nat -> deref (h ++ fresh) r = deref h r.
Proof. intros Hr; unfold deref; apply app_nth1; assumption. Qed.

Lemma circuit_step_ref_spec (h : store) (points : ref) (n : nat) (resolution : R) :
  let '(h', points') := circuit_step_ref h points n resolution in
  deref h' points' = circuit_step (deref h points) n resolution /\
  ((h' = h /\ points' = points) \/
   (h' = h ++ [circuit_step (deref h points) n resolution] /\ points' = length h)).
Proof.
  unfold circuit_step_ref, circuit_step.
  destruct (next_insertion (deref h points) n resolution) as [[i row]|]; simpl.
  - split; [apply deref_alloc_new | right; split; reflexivity].
  - split; [reflexivity | left; split; reflexivity].
Qed.

(** The loop over objects computes what the loop over values computes, and
    only appends to the store. *)
Lemma circuit_loop_ref_spec (fuel : nat) :
  forall (n : nat) (h : store) (points : ref) (resolution : R),
    let '(h', returned) := circuit_loop_ref fuel n h points resolution in
    (exists fresh, h' = h ++ fresh) /\
    match returned with
    | Some r =>
        circuit_loop fuel n (deref h points) resolution = Some (deref h' r) /\
        (r = points \/ (length h <= r)%nat)
    | None => circuit_loop fuel n (deref h points) resolution = None
    end.
Proof.
  induction fuel as [|fuel IH]; intros n h points resolution; simpl.
  - split; [exists []; rewrite app_nil_r; reflexivity | reflexivity].
  - destruct (n <? length (deref h points))%nat.
    + pose proof (circuit_step_ref_spec h points n resolution) as Hstep.
      destruct (circuit_step_ref h points n resolution) as [h1 points1].
      destruct Hstep as [Hderef Hcases].
      specialize (IH (n + 1)%nat h1 points1 resolution).
      destruct (circuit_loop_ref fuel (n + 1) h1 points1 resolution)
        as [h' returned].
      rewrite Hderef in IH. destruct IH as [[fresh ->] Hret].
      destruct Hcases as [[-> ->] | [-> ->]].
      * split; [exists fresh; reflexivity | exact Hret].
      * split; [exists ([circuit_step (deref h points) n resolution] ++ fresh);
                rewrite app_assoc; reflexivity|].
        destruct returned as [r|]; [|exact Hret].
        destruct Hret as [Hrun Hr]; split; [exact Hrun|].
        right. rewrite length_app in Hr; simpl in Hr. lia.
    + split; [exists []; rewrite app_nil_r; reflexivity|].
      split; [reflexivity | left; reflexivity].
Qed.

(** C10.  [increase_circuit_resolution] writes into no array: after any
    number of passes every array object that existed at the call, the
    argument among them, is what it was; the passes only allocate new
    objects.  The refined contour is the object the function returns, which
    is the argument itself when nothing was inserted and a new object
    otherwise. *)
Theorem increase_circuit_resolution_keeps_argument
  (fuel : nat) (h : store) (points : ref) (resolution : R) :
  let '(h', returned) := increase_circuit_resolution_ref fuel h points resolution in
  (forall r, (r < length h)%nat -> deref h' r = deref h r) /\
  (exists fresh, h' = h ++ fresh) /\
  match returned with
  | Some r =>
      increase_circuit_resolution fuel (deref h points) resolution
      = Some (deref h' r) /\
      (r = points \/ (length h <= r)%nat)
  | None => increase_circuit_resolution fuel (deref h points) resolution = None
  end.
Proof.
  unfold increase_circuit_resolution_ref, increase_circuit_resolution.
  pose proof (circuit_loop_ref_spec fuel 0 h points resolution) as Hspec.
  destruct (circuit_loop_ref fuel 0 h points resolution) as [h' returned].
  destruct Hspec as [[fresh ->] Hret].
  split; [intros r Hr; apply deref_app_old; assumption|].
  split; [exists fresh; reflexivity | exact Hret].
Qed.

(** ** The contour selector *)

Lemma nth_snoc (seen : list R) (x : R) : nth (length seen) (seen ++ [x]) 0 = x.
Proof. rewrite app_nth2, Nat.sub_diag by lia; reflexivity. Qed.

Lemma argmax_from_first_max (l : list R) :
  forall (seen : list R) (best_i : nat),
    first_max seen best_i ->
    first_max (seen ++ l) (argmax_from best_i (nth best_i seen 0) (length seen) l).
Proof.
  induction l as [|x l IH]; intros seen best_i Hb; simpl.
  - rewrite app_nil_r; exact Hb.
  - destruct Hb as (Hlt & Hmax & Hfirst).
    replace (seen ++ x :: l) with ((seen ++ [x]) ++ l)
      by (rewrite <- app_assoc; reflexivity).
    replace (S (length seen)) with (length (seen ++ [x]))
      by (rewrite length_app; simpl; lia).
    destruct (Rgt_dec x (nth best_i seen 0)) as [Hx|Hx].
    + assert (first_max (seen ++ [x]) (length seen)) as Hnew.
      { repeat split.
        - rewrite length_app; simpl; lia.
        - intros j Hj. rewrite length_app in Hj; simpl in Hj.
          rewrite nth_snoc.
          destruct (Nat.eq_dec j (length seen)) as [->|Hne].
          + rewrite nth_snoc; lra.
          + rewrite app_nth1 by lia. specialize (Hmax j ltac:(lia)). lra.
        - intros j Hj. rewrite nth_snoc, app_nth1 by lia.
          specialize (Hmax j Hj). lra. }
      pose proof (IH _ _ Hnew) as H. rewrite nth_snoc in H. exact H.
    + assert (first_max (seen ++ [x]) best_i) as Hnew.
      { repeat split.
        - rewrite length_app; simpl; lia.
        - intros j Hj. rewrite length_app in Hj; simpl in Hj.
          rewrite (app_nth1 seen [x] 0 Hlt).
          destruct (Nat.eq_dec j (length seen)) as [->|Hne].
          + rewrite nth_snoc; lra.
          + rewrite app_nth1 by lia. apply Hmax; lia.
        - intros j Hj. rewrite (app_nth1 seen [x] 0 Hlt).
          rewrite app_nth1 by lia. apply Hfirst; assumption. }
      pose proof (IH _ _ Hnew) as H.
      rewrite (app_nth1 seen [x] 0 Hlt) in H. exact H.
Qed.

Lemma argmax_first_max (l : list R) : l <> [] -> first_max l (argmax l).
Proof.
  destruct l as [|x l]; [congruence|]; intros _.
  apply (argmax_from_first_max l [x] 0%nat).
  repeat split; simpl; try lia.
  intros [|j] Hj; [lra | simpl in Hj; lia].
Qed.

Lemma fold_left_nonneg (f : nat -> R) (l : list nat) (acc : R) :
  (forall n, 0 <= f n) -> 0 <= acc ->
  0 <= fold_left (fun conlen n => conlen + f n) l acc.
Proof.
  intros Hf; revert acc; induction l as [|n l IH]; intros acc Hacc; simpl.
  - assumption.
  - apply IH. specialize (Hf n). lra.
Qed.

Lemma length_km_nonneg (c : contour) : 0 <= length_km c.
Proof.
  unfold length_km, contour_length. destruct c as [|p0 c]; [lra|].
  apply (fold_left_nonneg
           (fun n => haversine (nth n (p0 :: c) origin) (nth (n + 1) (p0 :: c) origin))).
  - intros n; apply haversine_nonneg.
  - apply haversine_nonneg.
Qed.

Lemma zeroed_nonneg (threshold : R) (c : contour) : 0 <= zeroed threshold c.
Proof.
  unfold zeroed, astype_int. pose proof (length_km_nonneg c).
  destruct (closed_within threshold c); lra.
Qed.

Lemma zeroed_eq_0 (threshold : R) (c : contour) :
  zeroed threshold c = 0 <-> closed_within threshold c = false \/ length_km c = 0.
Proof.
  unfold zeroed, astype_int. destruct (closed_within threshold c); split.
  - intros H; right; lra.
  - intros [H|H]; [discriminate | lra].
  - intros _; left; reflexivity.
  - intros _; lra.
Qed.

Lemma zeroed_closed (threshold : R) (c : contour) :
  closed_within threshold c = true -> zeroed threshold c = length_km c.
Proof. unfold zeroed, astype_int; intros ->; lra. Qed.

Lemma lengths_of_nonempty (contours : list contour) :
  Forall (fun c => c <> []) contours ->
  list_comprehension contour_length contours = Ok (map length_km contours).
Proof.
  induction 1 as [|c cs Hc _ IH]; simpl; [reflexivity|].
  rewrite IH. unfold length_km.
  destruct c as [|p0 c]; [congruence | reflexivity].
Qed.

Lemma closed_of_nonempty (threshold : R) (contours : list contour) :
  Forall (fun c => c <> []) contours ->
  list_comprehension (fun x => is_closed_contour x threshold) contours
  = Ok (map (closed_within threshold) contours).
Proof.
  induction 1 as [|c cs Hc _ IH]; simpl; [reflexivity|].
  rewrite IH. unfold closed_within.
  destruct c as [|p0 c]; [congruence | reflexivity].
Qed.

Lemma zero_open_map (threshold : R) (contours : list contour) :
  zero_open (map length_km contours) (map (closed_within threshold) contours)
  = map (zeroed threshold) contours.
Proof. induction contours as [|c cs IH]; simpl; [|rewrite IH]; reflexivity. Qed.

Lemma zeroed_nil (threshold : R) : zeroed threshold [] = 0.
Proof. unfold zeroed, length_km; simpl; ring. Qed.

Lemma nth_zeroed (threshold : R) (contours : list contour) (i : nat) :
  nth i (map (zeroed threshold) contours) 0 = zeroed threshold (nth i contours []).
Proof.
  rewrite <- (map_nth (zeroed threshold) contours [] i), zeroed_nil; reflexivity.
Qed.

Lemma get_longest_closed_contour_eq (contours : list contour) (threshold : R) :
  Forall (fun c => c <> []) contours -> contours <> [] ->
  get_longest_closed_contour contours threshold =
  let imax := argmax (map (zeroed threshold) contours) in
  if Req_dec_T (zeroed threshold (nth imax contours [])) 0
  then Raise no_closed_contours
  else Ok (nth imax contours []).
Proof.
  intros Hne Hcs. unfold get_longest_closed_contour.
  rewrite (lengths_of_nonempty contours Hne), (closed_of_nonempty threshold contours Hne).
  simpl bind. rewrite zero_open_map, nth_zeroed.
  destruct contours as [|c cs]; [congruence | reflexivity].
Qed.

(** C3 (amended).  For every non-empty list of non-empty candidates,
    [get_longest_closed_contour] returns the first candidate of maximal
    length among those that pass the closure test, and it fails with the
    no-closed-contour error exactly when the maximum of the zeroed lengths is
    zero, that is when every candidate is open or has length zero.  For the
    empty list it fails with the error of [argmax]. *)
Theorem get_longest_closed_contour_selects
  (contours : list contour) (threshold : R) :
  Forall (fun c => c <> []) contours ->
  (contours = [] -> get_longest_closed_contour contours threshold = Raise empty_argmax) /\
  (contours <> [] ->
   (get_longest_closed_contour contours threshold = Raise no_closed_contours \/
    exists c, get_longest_closed_contour contours threshold = Ok c) /\
   (get_longest_closed_contour contours threshold = Raise no_closed_contours <->
    zeroed threshold (nth (argmax (map (zeroed threshold) contours)) contours []) = 0) /\
   (get_longest_closed_contour contours threshold = Raise no_closed_contours <->
    forall c, In c contours ->
              closed_within threshold c = false \/ length_km c = 0) /\
   (forall c, get_longest_closed_contour contours threshold = Ok c ->
    exists i,
      nth_error contours i = Some c /\
      closed_within threshold c = true /\ 0 < length_km c /\
      (forall c', In c' contours -> closed_within threshold c' = true ->
                  length_km c' <= length_km c) /\
      (forall j c', (j < i)%nat -> nth_error contours j = Some c' ->
                    closed_within threshold c' = true ->
                    length_km c' < length_km c))).
Proof.
  intros Hne; split; [intros ->; reflexivity|]. intros Hcs.
  rewrite (get_longest_closed_contour_eq contours threshold Hne Hcs).
  set (l := map (zeroed threshold) contours).
  assert (l <> []) as Hl by (unfold l; destruct contours; [congruence | discriminate]).
  destruct (argmax_first_max l Hl) as (Hlt & Hmax & Hfirst).
  set (i := argmax l) in *. cbv zeta.
  assert (length l = length contours) as Hlen by (unfold l; apply length_map).
  rewrite Hlen in Hlt, Hmax.
  unfold l in Hmax, Hfirst. setoid_rewrite nth_zeroed in Hmax.
  setoid_rewrite nth_zeroed in Hfirst.
  assert (forall c, In c contours ->
                    zeroed threshold c <= zeroed threshold (nth i contours [])) as Hall.
  { intros c Hc. destruct (In_nth _ _ [] Hc) as (j & Hj & <-).
    apply Hmax; exact Hj. }
  destruct (Req_dec_T (zeroed threshold (nth i contours [])) 0) as [Hz|Hz].
  - split; [left; reflexivity|]. split; [tauto|]. split.
    + split; [|reflexivity]. intros _ c Hc. apply zeroed_eq_0.
      pose proof (Hall c Hc). pose proof (zeroed_nonneg threshold c). lra.
    + intros c H; discriminate H.
  - split; [right; eexists; reflexivity|].
    split; [split; [discriminate | intros H; contradiction]|]. split.
    + split; [discriminate|]. intros Hopen. exfalso; apply Hz, zeroed_eq_0, Hopen.
      apply nth_In; lia.
    + intros c H; injection H as <-. exists i.
      assert (closed_within threshold (nth i contours []) = true) as Hclosed.
      { destruct (closed_within threshold (nth i contours [])) eqn:E; [reflexivity|].
        exfalso; apply Hz, zeroed_eq_0; left; assumption. }
      pose proof (zeroed_closed _ _ Hclosed) as Hzc.
      repeat split.
      * apply nth_error_nth'; lia.
      * assumption.
      * pose proof (length_km_nonneg (nth i contours [])). lra.
      * intros c' Hc' Hcl. pose proof (Hall c' Hc').
        rewrite (zeroed_closed _ _ Hcl) in *. lra.
      * intros j c' Hj Hnth Hcl. specialize (Hfirst j Hj).
        rewrite (@nth_error_nth contour contours j c' [] Hnth),
          (zeroed_closed _ _ Hcl) in Hfirst. lra.
Qed.

(** C3 as stated fails: a contour of one node passes the closure test, and
    the selector still raises the no-closed-contour error. *)
Lemma get_longest_closed_contour_zero_length :
  is_closed_contour single_node 100 = Ok true /\
  get_longest_closed_contour [single_node] 100 = Raise no_closed_contours.
Proof.
  assert (is_closed_contour single_node 100 = Ok true) as Hc.
  { unfold is_closed_contour, single_node, last_point; simpl.
    rewrite haversine_refl. destruct (Rlt_dec 0 100); [reflexivity | lra]. }
  split; [exact Hc|].
  rewrite get_longest_closed_contour_eq;
    [| repeat constructor; discriminate | discriminate].
  cbv zeta.
  assert (zeroed 100 (nth (argmax (map (zeroed 100) [single_node])) [single_node] []) = 0)
    as Hz.
  { simpl. apply zeroed_eq_0; right.
    unfold length_km, contour_length, single_node, last_point; simpl.
    apply haversine_refl. }
  destruct (Req_dec_T _ 0); [reflexivity | contradiction].
Qed.

(** *** The example contours *)

Lemma haversine_half_degree :
  haversine (0, 0) (0, 1 / 2) = 6371 * (PI / 180) * (1 / 2).
Proof.
  rewrite haversine_meridian; rewrite Rminus_0_r, Rabs_right; lra.
Qed.

Lemma haversine_ten_degrees :
  haversine (0, 0) (0, 10) = 6371 * (PI / 180) * 10.
Proof.
  rewrite haversine_meridian; rewrite Rminus_0_r, Rabs_right; lra.
Qed.

Lemma there_and_back_closed : closed_within 100 there_and_back = true.
Proof.
  unfold closed_within, is_closed_contour, there_and_back, last_point; simpl.
  rewrite haversine_refl. destruct (Rlt_dec 0 100); [reflexivity | lra].
Qed.

Lemma there_and_back_length : 0 < length_km there_and_back.
Proof.
  unfold length_km, contour_length, there_and_back, last_point; simpl.
  rewrite haversine_refl, (haversine_sym (0, 1 / 2) (0, 0)), haversine_half_degree.
  pose proof PI_RGT_0. lra.
Qed.

Lemma open_line_open : closed_within 100 open_line = false.
Proof.
  unfold closed_within, is_closed_contour, open_line, last_point; simpl.
  rewrite haversine_ten_degrees. pose proof PI_gt_3.
  destruct (Rlt_dec (6371 * (PI / 180) * 10) 100); [lra | reflexivity].
Qed.

(** The selector on an open line and a closed loop returns the loop. *)
Lemma get_longest_closed_contour_selects_witness :
  get_longest_closed_contour [open_line; there_and_back] 100 = Ok there_and_back.
Proof.
  destruct (get_longest_closed_contour_selects [open_line; there_and_back] 100)
    as [_ H].
  - repeat constructor; discriminate.
  - destruct (H ltac:(discriminate)) as ([Hraise | [c Hok]] & _ & Hopen & Hsel).
    + exfalso. destruct (proj1 Hopen Hraise there_and_back) as [Ho|Hz].
      * right; left; reflexivity.
      * rewrite there_and_back_closed in Ho; discriminate Ho.
      * pose proof there_and_back_length; lra.
    + rewrite Hok. destruct (Hsel c Hok) as (i & Hnth & Hclosed & _).
      apply nth_error_In in Hnth. destruct Hnth as [<- | [<- | []]].
      * rewrite open_line_open in Hclosed; discriminate Hclosed.
      * reflexivity.
Defined.

(** ** Bin edges *)

Lemma np_diff_uniform (n : nat) (x0 dx : R) :
  fold_right Rplus 0 (np_diff (uniform_grid x0 dx (S n))) = INR n * dx /\
  length (np_diff (uniform_grid x0 dx (S n))) = n.
Proof.
  revert x0; induction n as [|n IH]; intros x0.
  - simpl; split; [ring | reflexivity].
  - destruct (IH (x0 + dx)) as [Hsum Hlen].
    change (np_diff (uniform_grid x0 dx (S (S n))))
      with ((x0 + dx - x0) :: np_diff (uniform_grid (x0 + dx) dx (S n))).
    set (rest := np_diff (uniform_grid (x0 + dx) dx (S n))) in *.
    simpl. rewrite Hsum, Hlen.
    split; [destruct n; simpl; ring | reflexivity].
Qed.

Lemma mean_diff_uniform (n : nat) (x0 dx : R) :
  mean (np_diff (uniform_grid x0 dx (S (S n)))) = dx.
Proof.
  unfold mean. destruct (np_diff_uniform (S n) x0 dx) as [-> ->].
  field. apply not_0_INR; discriminate.
Qed.

(** On a grid of uniform spacing [dx] with at least two points the edges
    are the grid coordinates shifted down by a whole [dx], and the last
    coordinate shifted up by a whole [dx]. *)
Lemma bin_edges_uniform (n : nat) (x0 dx : R) :
  let x := uniform_grid x0 dx (S (S n)) in
  _bin_edges x = Ok (map (fun xi => xi - dx) x ++ [last x 0 + dx]).
Proof.
  cbv zeta. unfold _bin_edges. rewrite mean_diff_uniform. reflexivity.
Qed.

(** C8, at the grid [0, 1, 2] of spacing 1: [_bin_edges] returns
    [-1, 0, 1, 3], the coordinates shifted by the whole spacing, where the
    midpoints extended by half a cell are [-1/2, 1/2, 3/2, 5/2]. *)
Theorem bin_edges_whole_spacing :
  mean (np_diff [0; 1; 2]) = 1 /\
  _bin_edges [0; 1; 2] = Ok [-1; 0; 1; 3] /\
  midpoint_edges [0; 1; 2] 1 = [-1 / 2; 1 / 2; 3 / 2; 5 / 2] /\
  _bin_edges [0; 1; 2] <> Ok (midpoint_edges [0; 1; 2] 1).
Proof.
  assert (mean (np_diff [0; 1; 2]) = 1) as Hm by (unfold mean; simpl; field).
  assert (_bin_edges [0; 1; 2] = Ok [-1; 0; 1; 3]) as He.
  { unfold _bin_edges. rewrite Hm. simpl.
    repeat (f_equal; try lra). }
  assert (midpoint_edges [0; 1; 2] 1 = [-1 / 2; 1 / 2; 3 / 2; 5 / 2]) as Hs.
  { unfold midpoint_edges; simpl. repeat (f_equal; try lra). }
  repeat split; try assumption.
  rewrite He, Hs. intros H. injection H as H _. lra.
Qed.

(** ** The outflow-region extractor *)

Lemma open_line_not_selected :
  get_longest_closed_contour [open_line] 100 = Raise no_closed_contours.
Proof.
  rewrite get_longest_closed_contour_eq;
    [| repeat constructor; discriminate | discriminate].
  cbv zeta.
  assert (zeroed 100 (nth (argmax (map (zeroed 100) [open_line])) [open_line] []) = 0)
    as Hz by (simpl; apply zeroed_eq_0; left; apply open_line_open).
  destruct (Req_dec_T _ 0); [reflexivity | contradiction].
Qed.

Lemma there_and_back_selected :
  get_longest_closed_contour [there_and_back] 100 = Ok there_and_back.
Proof.
  rewrite get_longest_closed_contour_eq;
    [| repeat constructor; discriminate | discriminate].
  cbv zeta. simpl nth.
  destruct (Req_dec_T (zeroed 100 there_and_back) 0) as [Hz|Hz]; [|reflexivity].
  exfalso. apply zeroed_eq_0 in Hz. destruct Hz as [Hz|Hz].
  - rewrite there_and_back_closed in Hz; discriminate Hz.
  - pose proof there_and_back_length; lra.
Qed.

Section GetPoints.

Variable iplt_contour : field Z -> R -> list contour.
Variable contains_points : contour -> point -> bool.

(** Whatever [get_points] returns, the boundary is the selected contour as
    the contouring produced it, and the interior is classified against it. *)
Lemma get_points_boundary (fuel : nat) (dtheta pv z : field R) (resolution : R)
  (boundary : contour) (points : list row3) :
  get_points iplt_contour contains_points fuel dtheta pv z resolution
  = Some (Ok (boundary, points)) ->
  get_longest_closed_contour
    (iplt_contour (Field (grid pv) (criteria_mask (data pv) (data dtheta))) (1 / 2))
    100 = Ok boundary /\
  points = interior contains_points boundary dtheta z.
Proof.
  unfold get_points.
  destruct (get_longest_closed_contour _ 100) as [selected|e]; [|discriminate].
  unfold alloc; simpl app; simpl length.
  unfold increase_circuit_resolution_ref.
  pose proof (circuit_loop_ref_spec fuel 0 [selected] 0%nat resolution) as Hspec.
  destruct (circuit_loop_ref fuel 0 [selected] 0%nat resolution) as [h' returned].
  destruct Hspec as [[fresh ->] _].
  destruct returned as [r|]; [|discriminate].
  intros H; injection H as <- <-. split; reflexivity.
Qed.

(** [get_points] returns when the selected contour ends within the
    resolution of its first node. *)
Lemma get_points_returns (dtheta pv z : field R) (resolution : R)
  (selected : contour) :
  get_longest_closed_contour
    (iplt_contour (Field (grid pv) (criteria_mask (data pv) (data dtheta))) (1 / 2))
    100 = Ok selected ->
  0 < resolution ->
  haversine (last_point selected) (nth 0 selected origin) <= resolution ->
  exists fuel,
    get_points iplt_contour contains_points fuel dtheta pv z resolution
    = Some (Ok (selected, interior contains_points selected dtheta z)).
Proof.
  intros Hsel Hres Hwrap.
  assert (exists fuel out, circuit_loop fuel 0 selected resolution = Some out)
    as (fuel & out & Hrun).
  { destruct selected as [|p post]; [exists 1%nat, []; reflexivity|].
    apply (loop_terminates_split resolution Hres post [] p); exact Hwrap. }
  exists fuel. unfold get_points. rewrite Hsel.
  unfold alloc; simpl app; simpl length.
  unfold increase_circuit_resolution_ref.
  pose proof (circuit_loop_ref_spec fuel 0 [selected] 0%nat resolution) as Hspec.
  destruct (circuit_loop_ref fuel 0 [selected] 0%nat resolution) as [h' returned].
  destruct Hspec as [[fresh ->] Hret].
  destruct returned as [r|].
  - reflexivity.
  - change (deref [selected] 0%nat) with selected in Hret. congruence.
Qed.

End GetPoints.

(** C1, at a contour of nodes 55 km apart and a resolution of 5 km:
    [get_points] returns, and the boundary it returns is the contour as
    selected, with its nodes still 55 km apart, and the interior is
    classified against that contour; the array that
    [increase_circuit_resolution] builds for the same contour is longer. *)
Theorem get_points_boundary_not_resampled
  (contains_points : contour -> point -> bool) :
  exists fuel,
    get_points (fun _ _ => [there_and_back]) contains_points fuel
      half_degree_field half_degree_field half_degree_altitude 5
    = Some (Ok (there_and_back,
                interior contains_points there_and_back
                  half_degree_field half_degree_altitude)) /\
    haversine (nth 0 there_and_back origin) (nth 1 there_and_back origin) > 5 /\
    forall fuel' out,
      increase_circuit_resolution fuel' there_and_back 5 = Some out ->
      (length there_and_back < length out)%nat.
Proof.
  assert (haversine (0, 0) (0, 1 / 2) > 5) as Hfar.
  { rewrite haversine_half_degree. pose proof PI_gt_3. lra. }
  destruct (get_points_returns (fun _ _ => [there_and_back]) contains_points
              half_degree_field half_degree_field half_degree_altitude 5
              there_and_back there_and_back_selected ltac:(lra)) as [fuel Hrun].
  { unfold there_and_back, last_point; simpl. rewrite haversine_refl; lra. }
  exists fuel. split; [exact Hrun|]. split; [exact Hfar|].
  intros [|fuel'] out Hout; [discriminate|].
  unfold increase_circuit_resolution, there_and_back in Hout.
  change [(0, 0); (0, 1 / 2); (0, 0)]
    with ([] ++ (0, 0) :: (0, 1 / 2) :: [(0, 0)]) in Hout.
  change 0%nat with (length (@nil point)) in Hout.
  rewrite circuit_loop_inside in Hout.
  destruct (Rgt_dec (haversine (0, 0) (0, 1 / 2)) 5) as [_|Hn]; [|lra].
  apply (loop_keeps_split 5 fuel' [(0, 0)]) in Hout.
  - destruct Hout as (tail & -> & Hsub & _).
    apply subseq_length in Hsub. unfold there_and_back.
    rewrite !length_app; simpl in *; lia.
  - simpl. rewrite haversine_refl; lra.
Qed.

(** ** The per-level driver *)

Section Driver.

Variable iplt_contour : field Z -> R -> list contour.
Variable contains_points : contour -> point -> bool.
Variable level_subsets : R -> field R * field R * field R.
Variable fuel : nat.
Variable resolution : R.

Local Abbreviation extraction :=
  (extraction iplt_contour contains_points level_subsets fuel resolution).
Local Abbreviation accumulated :=
  (accumulated iplt_contour contains_points level_subsets fuel resolution).

Lemma no_success_no_rows (theta_levels : list R) :
  existsb (level_succeeded extraction) theta_levels = false ->
  flat_map (level_boundary extraction) theta_levels = [] /\
  flat_map (level_volume extraction) theta_levels = [].
Proof.
  induction theta_levels as [|theta rest IH]; simpl; [split; reflexivity|].
  intros H; apply orb_false_iff in H; destruct H as [Hs Hrest].
  destruct (IH Hrest) as [-> ->].
  unfold level_succeeded in Hs. unfold level_boundary, level_volume.
  destruct (extraction theta) as [[[b pts]|e]|]; try discriminate; split; reflexivity.
Qed.

Lemma outflow_th_levels_cons (theta : R) (rest : list R) (st : locals)
  (log : list event) :
  outflow_th_levels iplt_contour contains_points level_subsets fuel
    (theta :: rest) resolution st log =
  match extraction theta with
  | None => None
  | Some (Ok (boundary, points)) =>
      if new_contours st then
        outflow_th_levels iplt_contour contains_points level_subsets fuel rest
          resolution
          (Locals false (Some (tagged theta boundary)) (Some (tagged theta points)))
          (log ++ [PrintLevel theta])
      else
        match outflow_boundaries st, outflow_volume st with
        | Some b, Some v =>
            outflow_th_levels iplt_contour contains_points level_subsets fuel
              rest resolution
              (Locals false (Some (b ++ tagged theta boundary))
                 (Some (v ++ tagged theta points)))
              (log ++ [PrintLevel theta])
        | None, _ =>
            Some (log ++ [PrintLevel theta],
                  Raise (UnboundLocalError "outflow_boundaries"))
        | _, None =>
            Some (log ++ [PrintLevel theta],
                  Raise (UnboundLocalError "outflow_volume"))
        end
  | Some (Raise (ValueError _)) =>
      outflow_th_levels iplt_contour contains_points level_subsets fuel rest
        resolution st
        ((log ++ [PrintLevel theta]) ++
         [PrintText "No closed contours found at this level"])
  | Some (Raise e) => Some (log ++ [PrintLevel theta], Raise e)
  end.
Proof.
  simpl. unfold OutflowSpec.extraction.
  destruct (level_subsets theta) as [[dtheta_subset pv_subset] z_subset].
  reflexivity.
Qed.

Lemma accumulated_cons_success (theta : R) (rest : list R) (st : locals)
  (b : contour) (pts : list row3) :
  extraction theta = Some (Ok (b, pts)) ->
  accumulated st (theta :: rest)
  = accumulated
      (Locals false (Some (bound_boundaries st ++ tagged theta b))
         (Some (bound_volume st ++ tagged theta pts))) rest.
Proof.
  intros Hrun. unfold OutflowSpec.accumulated. simpl.
  unfold level_succeeded at 1, level_boundary at 1, level_volume at 1.
  rewrite Hrun. simpl.
  destruct (existsb (level_succeeded extraction) rest) eqn:E.
  - unfold bound_boundaries, bound_volume; simpl.
    rewrite <- !app_assoc. reflexivity.
  - destruct (no_success_no_rows rest E) as [-> ->].
    rewrite !app_nil_r. reflexivity.
Qed.

Lemma accumulated_cons_failure (theta : R) (rest : list R) (st : locals)
  (msg : string) :
  extraction theta = Some (Raise (ValueError msg)) ->
  accumulated st (theta :: rest) = accumulated st rest.
Proof.
  intros Hrun. unfold OutflowSpec.accumulated. simpl.
  unfold level_succeeded at 1, level_boundary at 1, level_volume at 1.
  rewrite Hrun. reflexivity.
Qed.

Lemma outflow_th_levels_accumulates (theta_levels : list R) :
  forall (st : locals) (log : list event),
    (forall theta, In theta theta_levels -> level_settled extraction theta) ->
    consistent st ->
    outflow_th_levels iplt_contour contains_points level_subsets fuel
      theta_levels resolution st log
    = Some (log ++ flat_map (level_console extraction) theta_levels,
            Ok (accumulated st theta_levels)) /\
    consistent (accumulated st theta_levels).
Proof.
  induction theta_levels as [|theta rest IH]; intros st log Hsettled Hst.
  - simpl. rewrite app_nil_r. split; [reflexivity | exact Hst].
  - assert (forall t, In t rest -> level_settled extraction t) as Hrest
      by (intros t Ht; apply Hsettled; right; exact Ht).
    rewrite outflow_th_levels_cons. simpl flat_map.
    unfold level_console at 1, level_succeeded at 1.
    destruct (Hsettled theta (or_introl eq_refl))
      as [(b & pts & Hrun) | (msg & Hrun)].
    + rewrite (accumulated_cons_success theta rest st b pts Hrun), Hrun.
      cbv beta iota. unfold bound_boundaries, bound_volume.
      destruct Hst as [(Hnew & Hb & Hv) | (Hnew & b0 & v0 & Hb & Hv)];
        rewrite Hnew, Hb, Hv; simpl app.
      * destruct (IH (Locals false (Some (tagged theta b)) (Some (tagged theta pts)))
                    (log ++ [PrintLevel theta]) Hrest) as [Hrec Hc].
        { right; split; [reflexivity | eexists _, _; split; reflexivity]. }
        split; [|exact Hc]. rewrite Hrec, <- app_assoc. reflexivity.
      * destruct (IH (Locals false (Some (b0 ++ tagged theta b))
                        (Some (v0 ++ tagged theta pts)))
                    (log ++ [PrintLevel theta]) Hrest) as [Hrec Hc].
        { right; split; [reflexivity | eexists _, _; split; reflexivity]. }
        split; [|exact Hc]. rewrite Hrec, <- app_assoc. reflexivity.
    + rewrite (accumulated_cons_failure theta rest st msg Hrun), Hrun.
      cbv beta iota.
      destruct (IH st ((log ++ [PrintLevel theta]) ++
                       [PrintText "No closed contours found at this level"])
                  Hrest Hst) as [Hrec Hc].
      split; [|exact Hc]. rewrite Hrec, <- !app_assoc. reflexivity.
Qed.

(** X8.  When every level settles and at least one succeeds, a call with
    [save] writes the concatenation, in the order of the levels, of the
    theta-tagged boundaries and interior points of the levels that
    succeeded; every level that failed left a notice and no row. *)
Lemma outflow_th_saves_successful (theta_levels : list R) :
  (forall theta, In theta theta_levels -> level_settled extraction theta) ->
  existsb (level_succeeded extraction) theta_levels = true ->
  outflow_th iplt_contour contains_points level_subsets fuel theta_levels
    resolution true
  = Some (flat_map (level_console extraction) theta_levels ++
          [NpSaveBoundaries "outflow_boundaries.npy"
             (flat_map (level_boundary extraction) theta_levels);
           NpSaveVolume "outflow_volume.npy"
             (flat_map (level_volume extraction) theta_levels)],
          Ok tt).
Proof.
  intros Hsettled Hsome. unfold outflow_th.
  destruct (outflow_th_levels_accumulates theta_levels (Locals true None None) []
              Hsettled) as [-> _].
  { left; repeat split; reflexivity. }
  unfold OutflowSpec.accumulated. rewrite Hsome. simpl.
  rewrite <- app_assoc. reflexivity.
Qed.

(** When every level fails, the arrays are never bound, and a call with
    [save] ends in an UnboundLocalError. *)
Lemma outflow_th_nothing_to_save (theta_levels : list R) :
  (forall theta, In theta theta_levels -> level_settled extraction theta) ->
  existsb (level_succeeded extraction) theta_levels = false ->
  outflow_th iplt_contour contains_points level_subsets fuel theta_levels
    resolution true
  = Some (flat_map (level_console extraction) theta_levels,
          Raise (UnboundLocalError "outflow_boundaries")).
Proof.
  intros Hsettled Hnone. unfold outflow_th.
  destruct (outflow_th_levels_accumulates theta_levels (Locals true None None) []
              Hsettled) as [-> _].
  { left; repeat split; reflexivity. }
  unfold OutflowSpec.accumulated. rewrite Hnone. reflexivity.
Qed.

(** Without [save] the call ends with [plt.show()], whatever the levels
    did. *)
Lemma outflow_th_shows (theta_levels : list R) :
  (forall theta, In theta theta_levels -> level_settled extraction theta) ->
  outflow_th iplt_contour contains_points level_subsets fuel theta_levels
    resolution false
  = Some (flat_map (level_console extraction) theta_levels ++ [PltShow], Ok tt).
Proof.
  intros Hsettled. unfold outflow_th.
  destruct (outflow_th_levels_accumulates theta_levels (Locals true None None) []
              Hsettled) as [-> _].
  { left; repeat split; reflexivity. }
  reflexivity.
Qed.

End Driver.

(** C4, when every level fails.  With contouring that yields only an open
    line at each of two levels, every level leaves its notice and no row,
    the accumulated arrays are never bound, and the call with [save] ends in
    an UnboundLocalError instead of saving the concatenation of the
    successful levels, which is empty; without [save] it ends normally. *)
Theorem outflow_th_all_levels_fail
  (contains_points : contour -> point -> bool)
  (level_subsets : R -> field R * field R * field R)
  (fuel : nat) (resolution : R) :
  outflow_th (fun _ _ => [open_line]) contains_points level_subsets fuel
    [320; 325] resolution true
  = Some ([PrintLevel 320;
           PrintText "No closed contours found at this level";
           PrintLevel 325;
           PrintText "No closed contours found at this level"],
          Raise (UnboundLocalError "outflow_boundaries")) /\
  outflow_th (fun _ _ => [open_line]) contains_points level_subsets fuel
    [320; 325] resolution false
  = Some ([PrintLevel 320;
           PrintText "No closed contours found at this level";
           PrintLevel 325;
           PrintText "No closed contours found at this level";
           PltShow],
          Ok tt).
Proof.
  assert (forall theta,
             extraction (fun _ _ => [open_line]) contains_points level_subsets
               fuel resolution theta
             = Some (Raise no_closed_contours)) as Hrun.
  { intros theta. unfold extraction, get_points.
    destruct (level_subsets theta) as [[dtheta_subset pv_subset] z_subset].
    rewrite open_line_not_selected. reflexivity. }
  assert (forall theta, In theta [320; 325] ->
             level_settled
               (extraction (fun _ _ => [open_line]) contains_points level_subsets
                  fuel resolution) theta) as Hsettled.
  { intros theta _. right. exists "No closed contours found"%string.
    apply Hrun. }
  split.
  - rewrite outflow_th_nothing_to_save; [|exact Hsettled|].
    + simpl flat_map. unfold level_console, level_succeeded.
      rewrite !Hrun. reflexivity.
    + simpl. unfold level_succeeded. rewrite !Hrun. reflexivity.
  - rewrite outflow_th_shows; [|exact Hsettled].
    simpl flat_map. unfold level_console, level_succeeded.
    rewrite !Hrun. reflexivity.
Qed.

(** ** Distances along the parallels of the examples *)









(** *** The parallel of 60 degrees *)



(** ** A pair of the result further apart than the spacing *)



(** ** The closing edge on a meridian *)

(** Kilometres per degree of latitude. *)
Lemma meridian_degree_bounds :
  106 < 6371 * (PI / 180) < 142.
Proof. pose proof PI_gt_3; pose proof PI_4; split; lra. Qed.

Lemma haversine_on_meridian (lat1 lat2 : R) :
  0 <= lat1 <= 1 -> 0 <= lat2 <= 1 ->
  haversine (0, lat1) (0, lat2) = 6371 * (PI / 180) * Rabs (lat2 - lat1).
Proof.
  intros H1 H2. apply haversine_meridian.
  apply Rabs_le; lra.
Qed.

(** On the contour [(0, 0), (0, 0.8)] with a spacing of 40 km the edge from
    the first to the last node receives two nodes; the closing edge, of the
    same length, receives one node, at index 0, and the pass moves on: the
    first two nodes of the result are more than the spacing apart. *)
Lemma closing_edge_left_coarse :
  let k := 6371 * (PI / 180) in
  increase_circuit_resolution 6 meridian_pair 40
  = Some [(0, 4 / 5 - 40 / k); (0, 0); (0, 40 / k); (0, 2 * (40 / k)); (0, 4 / 5)] /\
  haversine (0, 4 / 5 - 40 / k) (0, 0) > 40 + 4.
Proof.
  cbv zeta. pose proof meridian_degree_bounds as [Hlo Hhi].
  set (k := 6371 * (PI / 180)) in *.
  assert (0 < 40 / k < 4 / 10) as Hd.
  { split; [apply Rdiv_lt_0_compat; lra|].
    apply (Rmult_lt_reg_r k); [lra|].
    replace (40 / k * k) with 40 by (field; lra). lra. }
  set (delta := 40 / k) in *.
  assert (k * delta = 40) as Hkd by (unfold delta; field; lra).
  assert (haversine (0, 0) (0, 4 / 5) = k * (4 / 5)) as H01.
  { rewrite haversine_on_meridian by lra. fold k. rewrite Rabs_right; lra. }
  assert (haversine (0, delta) (0, 4 / 5) = k * (4 / 5) - 40) as H12.
  { rewrite haversine_on_meridian by lra. fold k. rewrite Rabs_right; nra. }
  assert (haversine (0, 2 * delta) (0, 4 / 5) = k * (4 / 5) - 80) as H23.
  { rewrite haversine_on_meridian by lra. fold k. rewrite Rabs_right; nra. }
  assert (haversine (0, 4 / 5) (0, 0) = k * (4 / 5)) as H30.
  { rewrite haversine_sym; exact H01. }
  assert (haversine (0, 4 / 5) (0, 4 / 5 - delta) = 40) as H3n.
  { rewrite haversine_on_meridian by lra. fold k.
    rewrite Rabs_left by lra. nra. }
  assert (haversine (0, 4 / 5 - delta) (0, 0) = k * (4 / 5) - 40) as Hn0.
  { rewrite haversine_on_meridian by lra. fold k.
    rewrite Rabs_left by lra. nra. }
  assert (interpolate (0, 0) (0, 4 / 5) 40 = (0, delta)) as I1.
  { unfold interpolate. rewrite H01. simpl. unfold delta. f_equal; field; lra. }
  assert (interpolate (0, delta) (0, 4 / 5) 40 = (0, 2 * delta)) as I2.
  { unfold interpolate. rewrite H12. simpl. f_equal; [ring|].
    unfold delta. field. split; [lra | nra]. }
  assert (interpolate (0, 4 / 5) (0, 0) 40 = (0, 4 / 5 - delta)) as I3.
  { unfold interpolate. rewrite H30. simpl. unfold delta. f_equal; field; lra. }
  split; [|rewrite Hn0; lra].
  unfold increase_circuit_resolution, meridian_pair.
  change [(0, 0); (0, 4 / 5)] with ([] ++ (0, 0) :: (0, 4 / 5) :: []).
  change 0%nat with (length (@nil point)).
  rewrite circuit_loop_inside, H01, I1.
  destruct (Rgt_dec (k * (4 / 5)) 40); [|lra].
  rewrite circuit_loop_inside, H12, I2.
  destruct (Rgt_dec (k * (4 / 5) - 40) 40); [|lra].
  rewrite circuit_loop_inside, H23.
  destruct (Rgt_dec (k * (4 / 5) - 80) 40); [lra|].
  change ((([] ++ [(0, 0)]) ++ [(0, delta)]) ++ [(0, 2 * delta)])
    with [(0, 0); (0, delta); (0, 2 * delta)].
  rewrite circuit_loop_last. simpl hd. rewrite H30, I3.
  destruct (Rgt_dec (k * (4 / 5)) 40); [|lra].
  rewrite circuit_loop_last. simpl hd. rewrite H3n.
  destruct (Rgt_dec 40 40); [lra|]. reflexivity.
Qed.

(** ** Further properties of the distance *)

(** The argument of the square root lies between 0 and 1 for all nodes. *)
Lemma hav_a_range (p q : point) : 0 <= hav_a p q <= 1.
Proof.
  unfold hav_a.
  set (l1 := deg2rad (snd p)). set (l2 := deg2rad (snd q)).
  set (s := (sin ((deg2rad (fst q) - deg2rad (fst p)) / 2))²).
  assert (0 <= s <= 1) as Hs.
  { unfold s, Rsqr. set (u := sin _).
    pose proof (sin2_cos2 ((deg2rad (fst q) - deg2rad (fst p)) / 2)) as H.
    unfold Rsqr in H. fold u in H.
    pose proof (Rle_0_sqr (cos ((deg2rad (fst q) - deg2rad (fst p)) / 2))) as Hc.
    unfold Rsqr in Hc. nra. }
  assert ((sin ((l2 - l1) / 2))² = (1 - cos (l2 - l1)) / 2) as ->.
  { pose proof (cos_2a_sin ((l2 - l1) / 2)) as H.
    replace (2 * ((l2 - l1) / 2)) with (l2 - l1) in H by field.
    unfold Rsqr. lra. }
  rewrite cos_minus.
  pose proof (COS_bound (l2 - l1)) as Hm. rewrite cos_minus in Hm.
  pose proof (COS_bound (l2 + l1)) as Hp. rewrite cos_plus in Hp.
  set (C := cos l2 * cos l1) in *. set (S := sin l2 * sin l1) in *.
  replace (cos l1 * cos l2) with C by (unfold C; ring).
  nra.
Qed.

(** X9.  For all nodes the argument of the square root in [haversine] lies
    between 0 and 1, where the square root and the arcsine are defined, and
    the distance lies between 0 and half the circumference of the sphere of
    radius 6371 km. *)
Theorem haversine_range (x1 x2 : point) :
  0 <= hav_a x1 x2 <= 1 /\
  haversine x1 x2 = 2 * asin (sqrt (hav_a x1 x2)) * 6371 /\
  0 <= haversine x1 x2 <= 6371 * PI.
Proof.
  split; [apply hav_a_range|]. split; [reflexivity|].
  split; [apply haversine_nonneg|].
  rewrite haversine_eq.
  pose proof (asin_bound (sqrt (hav_a x1 x2))). lra.
Qed.

Lemma hav_a_shift (p q : point) :
  hav_a (fst p + 360, snd p) q = hav_a p q.
Proof.
  unfold hav_a; cbn [fst snd].
  replace ((deg2rad (fst q) - deg2rad (fst p + 360)) / 2)
    with (- ((deg2rad (fst p) - deg2rad (fst q)) / 2 + PI))
    by (unfold deg2rad; field).
  replace ((deg2rad (fst q) - deg2rad (fst p)) / 2)
    with (- ((deg2rad (fst p) - deg2rad (fst q)) / 2))
    by (unfold deg2rad; field).
  rewrite !sin_neg, neg_sin, <- !Rsqr_neg. reflexivity.
Qed.

(** X10.  The distance is symmetric, zero from a node to itself, and unchanged
    when a longitude is shifted by 360 degrees. *)
Theorem haversine_symmetries (x1 x2 : point) :
  haversine x1 x2 = haversine x2 x1 /\
  haversine x1 x1 = 0 /\
  haversine (fst x1 + 360, snd x1) x2 = haversine x1 x2 /\
  haversine x1 (fst x2 + 360, snd x2) = haversine x1 x2.
Proof.
  split; [apply haversine_sym|]. split; [apply haversine_refl|].
  assert (forall p q, haversine (fst p + 360, snd p) q = haversine p q) as Hshift.
  { intros p q. rewrite !haversine_eq, hav_a_shift. reflexivity. }
  split; [apply Hshift|].
  rewrite haversine_sym, Hshift. apply haversine_sym.
Qed.

(** Along the equator the distance is the arc of the longitude difference. *)
Lemma haversine_equator (lon1 lon2 : R) :
  Rabs (lon2 - lon1) <= 180 ->
  haversine (lon1, 0) (lon2, 0) = 6371 * (PI / 180) * Rabs (lon2 - lon1).
Proof.
  intros Hd. rewrite haversine_eq; unfold hav_a; cbn [fst snd].
  rewrite Rminus_diag.
  replace (0 / 2) with 0 by field.
  replace (deg2rad 0) with 0 by (unfold deg2rad; ring).
  rewrite sin_0, cos_0, Rsqr_0, Rplus_0_l, !Rmult_1_l, sqrt_Rsqr_abs.
  pose proof PI_RGT_0 as Hpi.
  assert (Rabs (sin ((deg2rad lon2 - deg2rad lon1) / 2))
          = sin (PI / 360 * Rabs (lon2 - lon1))) as ->.
  { unfold deg2rad. unfold Rabs at 2. destruct (Rcase_abs (lon2 - lon1)) as [Hn|Hp].
    - rewrite <- (Rabs_Ropp (sin _)), <- sin_neg.
      replace (- ((lon2 * (PI / 180) - lon1 * (PI / 180)) / 2))
        with (PI / 360 * - (lon2 - lon1)) by field.
      apply Rabs_right, Rle_ge, sin_ge_0; [nra|].
      rewrite Rabs_left in Hd by assumption. nra.
    - replace ((lon2 * (PI / 180) - lon1 * (PI / 180)) / 2)
        with (PI / 360 * (lon2 - lon1)) by field.
      apply Rabs_right, Rle_ge, sin_ge_0; [nra|].
      rewrite Rabs_right in Hd by assumption. nra. }
  pose proof (Rabs_pos (lon2 - lon1)).
  rewrite asin_sin by (split; nra).
  field.
Qed.

(** X11.  Along a meridian and along the equator the distance is the arc of
    the coordinate difference, 6371 pi / 180 km per degree, up to half a
    turn. *)
Theorem haversine_arcs (lon lat d : R) :
  Rabs d <= 180 ->
  haversine (lon, lat) (lon, lat + d) = 6371 * (PI / 180) * Rabs d /\
  haversine (lon, 0) (lon + d, 0) = 6371 * (PI / 180) * Rabs d.
Proof.
  intros Hd. split.
  - rewrite haversine_meridian; replace (lat + d - lat) with d by ring;
      [reflexivity | exact Hd].
  - rewrite haversine_equator; replace (lon + d - lon) with d by ring;
      [reflexivity | exact Hd].
Qed.

Lemma haversine_arcs_witness :
  haversine (0, 0) (0, 0 + 1) = 6371 * (PI / 180) * Rabs 1 /\
  haversine (0, 0) (0 + 1, 0) = 6371 * (PI / 180) * Rabs 1.
Proof.
  apply (haversine_arcs 0 0 1).
  rewrite Rabs_right; lra.
Defined.

(** ** Further properties of the contour length *)

Lemma fold_left_shift (p : point) (l : contour) (ns : list nat) (acc : R) :
  fold_left
    (fun conlen n =>
       conlen + haversine (nth n (p :: l) origin) (nth (n + 1) (p :: l) origin))
    (map S ns) acc
  = fold_left
      (fun conlen n => conlen + haversine (nth n l origin) (nth (n + 1) l origin))
      ns acc.
Proof.
  revert acc; induction ns as [|n ns IH]; intros acc; simpl; [reflexivity|].
  apply IH.
Qed.

Lemma fold_left_path (l : contour) (acc : R) :
  fold_left
    (fun conlen n => conlen + haversine (nth n l origin) (nth (n + 1) l origin))
    (seq 0 (length l - 1)) acc
  = acc + path_km l.
Proof.
  revert acc; induction l as [|p l IH]; intros acc; [simpl; ring|].
  destruct l as [|q l]; [simpl; ring|].
  replace (length (p :: q :: l) - 1)%nat with (S (length (q :: l) - 1))
    by (simpl; lia).
  rewrite <- cons_seq, <- seq_shift.
  cbn [fold_left]. rewrite fold_left_shift, IH.
  change (path_km (p :: q :: l)) with (haversine p q + path_km (q :: l)).
  simpl nth. ring.
Qed.

(** The length of a non-empty contour: the closing edge and the path. *)
Lemma contour_length_path (p : point) (l : contour) :
  contour_length (p :: l)
  = Ok (haversine (last (p :: l) origin) p + path_km (p :: l)).
Proof.
  unfold contour_length, last_point. rewrite fold_left_path. reflexivity.
Qed.

Lemma path_km_snoc (l : contour) (p q : point) :
  path_km ((l ++ [p]) ++ [q]) = path_km (l ++ [p]) + haversine p q.
Proof.
  induction l as [|a l IH]; [simpl; ring|].
  destruct l as [|b l]; [simpl; ring|].
  change (path_km (((a :: b :: l) ++ [p]) ++ [q]))
    with (haversine a b + path_km (((b :: l) ++ [p]) ++ [q])).
  change (path_km ((a :: b :: l) ++ [p]))
    with (haversine a b + path_km ((b :: l) ++ [p])).
  rewrite IH. ring.
Qed.

Lemma path_km_rev (l : contour) : path_km (rev l) = path_km l.
Proof.
  induction l as [|a l IH]; [reflexivity|].
  destruct l as [|b l]; [reflexivity|].
  change (rev (a :: b :: l)) with ((rev l ++ [b]) ++ [a]).
  rewrite path_km_snoc.
  change (rev l ++ [b]) with (rev (b :: l)). rewrite IH.
  change (path_km (a :: b :: l)) with (haversine a b + path_km (b :: l)).
  rewrite (haversine_sym b a). ring.
Qed.

(** X12.  The length of a contour does not depend on the node at which the
    loop starts: moving the first node to the end leaves it unchanged. *)
Theorem contour_length_rotate (p : point) (rest : contour) :
  contour_length (rest ++ [p]) = contour_length (p :: rest).
Proof.
  destruct (exists_last (l := p :: rest) ltac:(discriminate)) as (front & z & E).
  destruct rest as [|q rest]; [reflexivity|].
  destruct front as [|p' front]; [discriminate E|].
  injection E as <- E. rewrite E.
  destruct (front ++ [z]) as [|a l] eqn:Ea; [destruct front; discriminate Ea|].
  change ((a :: l) ++ [p]) with (a :: (l ++ [p])).
  rewrite !contour_length_path. f_equal.
  change (path_km (p :: a :: l)) with (haversine p a + path_km (a :: l)).
  change (last (p :: a :: l) origin) with (last (a :: l) origin).
  change (a :: l ++ [p]) with ((a :: l) ++ [p]).
  rewrite last_last, <- Ea, path_km_snoc, last_last. ring.
Qed.

(** X13.  The length of a contour does not depend on its orientation: the
    reversed contour has the same length, and an empty contour raises
    IndexError either way. *)
Theorem contour_length_reverse (points : contour) :
  contour_length (rev points) = contour_length points.
Proof.
  destruct points as [|p l]; [reflexivity|].
  rewrite contour_length_path.
  destruct (rev (p :: l)) as [|z front] eqn:E.
  { apply (f_equal (@length point)) in E. rewrite length_rev in E. discriminate E. }
  rewrite contour_length_path, <- E, path_km_rev. f_equal.
  assert (last (rev (p :: l)) origin = p) as ->
    by (change (rev (p :: l)) with (rev l ++ [p]); apply last_last).
  assert (last (p :: l) origin = z) as ->.
  { rewrite <- (rev_involutive (p :: l)), E.
    change (rev (z :: front)) with (rev front ++ [z]). apply last_last. }
  rewrite (haversine_sym p z). reflexivity.
Qed.

(** ** Candidates without nodes *)

Lemma contour_length_raises (c : contour) (e : exn) :
  contour_length c = Raise e -> c = [] /\ e = IndexError.
Proof.
  destruct c as [|p l]; unfold contour_length.
  - intros H; injection H as <-; split; reflexivity.
  - discriminate.
Qed.

Lemma lengths_of_empty_candidate (contours : list contour) :
  In [] contours ->
  list_comprehension contour_length contours = Raise IndexError.
Proof.
  induction contours as [|c cs IH]; intros Hin; [destruct Hin|].
  cbn [list_comprehension].
  destruct c as [|p l]; [reflexivity|].
  destruct Hin as [Hc|Hin]; [discriminate Hc|].
  rewrite contour_length_path. cbn [bind]. rewrite (IH Hin). reflexivity.
Qed.

(** X14.  A candidate without nodes makes the selector fail with IndexError,
    whatever the other candidates and the threshold are; this is not the
    ValueError of the case without closed contours. *)
Theorem get_longest_closed_contour_empty_candidate
  (contours : list contour) (threshold : R) :
  In [] contours ->
  get_longest_closed_contour contours threshold = Raise IndexError.
Proof.
  intros Hin. unfold get_longest_closed_contour.
  rewrite (lengths_of_empty_candidate contours Hin). reflexivity.
Qed.

Lemma get_longest_closed_contour_empty_candidate_witness :
  get_longest_closed_contour [there_and_back; []] 100 = Raise IndexError.
Proof.
  apply (get_longest_closed_contour_empty_candidate [there_and_back; []] 100).
  right; left; reflexivity.
Defined.

(** ** Contours that need no node *)

Lemma circuit_loop_ref_fine (resolution : R) (h : store) (points : ref) :
  fine resolution (deref h points) ->
  forall fuel n, (length (deref h points) - n < fuel)%nat ->
    circuit_loop_ref fuel n h points resolution = (h, Some points).
Proof.
  intros Hfine. induction fuel as [|fuel IH]; intros n Hfuel; [lia|].
  cbn [circuit_loop_ref].
  destruct (Nat.ltb_spec n (length (deref h points))) as [Hn|Hn]; [|reflexivity].
  unfold circuit_step_ref. rewrite (next_insertion_fine _ _ _ Hfine Hn).
  apply IH. lia.
Qed.

(** X15.  A contour in which every node has the next node of the loop within
    the resolution is returned as it is after one pass per node: the result
    is the argument, and it is the same array object, with nothing
    allocated. *)
Theorem increase_circuit_resolution_fine_unchanged
  (h : store) (points : ref) (resolution : R) (fuel : nat) :
  fine resolution (deref h points) ->
  (length (deref h points) < fuel)%nat ->
  increase_circuit_resolution fuel (deref h points) resolution
  = Some (deref h points) /\
  increase_circuit_resolution_ref fuel h points resolution = (h, Some points).
Proof.
  intros Hfine Hfuel. split.
  - apply circuit_loop_fine; [assumption | lia].
  - apply circuit_loop_ref_fine; [assumption | lia].
Qed.

Lemma there_and_back_fine : fine 100 there_and_back.
Proof.
  intros n Hn. unfold there_and_back in *. cbn [length] in *.
  pose proof haversine_half_degree as Hh. pose proof PI_4.
  destruct n as [|[|[|n]]]; [| | |lia].
  - change (haversine (0, 0) (0, 1 / 2) <= 100). lra.
  - change (haversine (0, 1 / 2) (0, 0) <= 100).
    rewrite haversine_sym. lra.
  - change (haversine (0, 0) (0, 0) <= 100).
    rewrite haversine_refl. lra.
Qed.

Lemma increase_circuit_resolution_fine_unchanged_witness :
  increase_circuit_resolution 4 there_and_back 100 = Some there_and_back /\
  increase_circuit_resolution_ref 4 [there_and_back] 0%nat 100
  = ([there_and_back], Some 0%nat).
Proof.
  apply (increase_circuit_resolution_fine_unchanged [there_and_back] 0%nat 100 4).
  - exact there_and_back_fine.
  - simpl. lia.
Defined.

(** ** A resolution of zero *)

Lemma interpolate_zero (p q : point) : interpolate p q 0 = p.
Proof.
  unfold interpolate. destruct p as [x y]; cbn [fst snd].
  f_equal; unfold Rdiv; ring.
Qed.

(** With a resolution of zero the pass at a node whose successor is at a
    positive distance inserts the node itself, and the next pass is in the
    same position. *)
Lemma zero_resolution_stuck (fuel : nat) :
  forall (pre : contour) (p q : point) (post : contour),
    haversine p q > 0 ->
    circuit_loop fuel (length pre) (pre ++ p :: q :: post) 0 = None.
Proof.
  induction fuel as [|fuel IH]; intros pre p q post Hd; [reflexivity|].
  rewrite circuit_loop_inside.
  destruct (Rgt_dec (haversine p q) 0) as [_|Hn]; [|lra].
  rewrite interpolate_zero. apply IH; exact Hd.
Qed.

Lemma zero_resolution_reaches (mid : contour) :
  forall (fuel : nat) (pre : contour) (p q : point) (post : contour),
    haversine p q > 0 ->
    circuit_loop fuel (length pre) (pre ++ mid ++ p :: q :: post) 0 = None.
Proof.
  induction mid as [|m mid IH]; intros fuel pre p q post Hd.
  - apply zero_resolution_stuck; exact Hd.
  - destruct fuel as [|fuel]; [reflexivity|].
    assert (exists r rest, mid ++ p :: q :: post = r :: rest) as (r & rest & E)
      by (destruct mid; eexists _, _; reflexivity).
    change ((m :: mid) ++ p :: q :: post) with (m :: (mid ++ p :: q :: post)).
    destruct (Rgt_dec (haversine m r) 0) as [Hgt|Hle].
    + rewrite E. apply zero_resolution_stuck; exact Hgt.
    + pose proof (IH fuel (pre ++ [m]) p q post Hd) as Hrec.
      rewrite <- app_assoc in Hrec. cbn [app] in Hrec.
      rewrite E in *. rewrite circuit_loop_inside.
      destruct (Rgt_dec (haversine m r) 0); [contradiction|].
      rewrite <- app_assoc. exact Hrec.
Qed.

(** X16.  With a resolution of zero the loop never reaches its exit on a
    contour that has two consecutive nodes at a positive distance: the pass
    at the first of them inserts a copy of the node, again and again. *)
Theorem increase_circuit_resolution_zero_resolution
  (before : contour) (p q : point) (after : contour) (fuel : nat) :
  haversine p q > 0 ->
  increase_circuit_resolution fuel (before ++ p :: q :: after) 0 = None.
Proof.
  intros Hd. unfold increase_circuit_resolution.
  exact (zero_resolution_reaches before fuel [] p q after Hd).
Qed.

Lemma increase_circuit_resolution_zero_resolution_witness :
  increase_circuit_resolution 1000 there_and_back 0 = None.
Proof.
  apply (increase_circuit_resolution_zero_resolution [] (0, 0) (0, 1 / 2) [(0, 0)] 1000).
  rewrite haversine_half_degree. pose proof PI_RGT_0. lra.
Defined.

(** ** Insertion along a meridian *)

(** X17.  Between two nodes on one meridian, less than half a turn apart and
    further apart than a positive resolution, the pass inserts a node on
    that meridian at exactly the resolution from the first node, and the
    rest of the way to the second node is shorter by exactly the
    resolution. *)
Theorem next_insertion_on_meridian
  (points : contour) (n : nat) (lon lat1 lat2 resolution : R) :
  nth n points origin = (lon, lat1) ->
  nth ((n + 1) mod length points) points origin = (lon, lat2) ->
  Rabs (lat2 - lat1) <= 180 ->
  0 < resolution ->
  haversine (lon, lat1) (lon, lat2) > resolution ->
  exists lat,
    next_insertion points n resolution
    = Some (((n + 1) mod length points)%nat, (lon, lat)) /\
    haversine (lon, lat1) (lon, lat) = resolution /\
    haversine (lon, lat) (lon, lat2)
    = haversine (lon, lat1) (lon, lat2) - resolution.
Proof.
  intros Hp Hq Hd Hres Hfar.
  set (d := haversine (lon, lat1) (lon, lat2)) in *.
  exists (lat1 + resolution / d * (lat2 - lat1)).
  assert (d = 6371 * (PI / 180) * Rabs (lat2 - lat1)) as Hdist
    by (apply haversine_meridian; exact Hd).
  pose proof PI_RGT_0 as Hpi.
  assert (0 < resolution / d < 1) as Ht.
  { split; [apply Rdiv_lt_0_compat; lra | apply div_lt_1; lra]. }
  set (t := resolution / d) in *.
  assert (0 < Rabs (lat2 - lat1)) as Hpos by nra.
  split; [|split].
  - unfold next_insertion. rewrite Hp, Hq. fold d.
    destruct (Rgt_dec d resolution) as [_|Hn]; [|lra].
    cbn [fst snd]. fold t. do 3 f_equal. ring.
  - rewrite haversine_meridian;
      replace (lat1 + t * (lat2 - lat1) - lat1) with (t * (lat2 - lat1)) by ring;
      rewrite Rabs_mult, (Rabs_right t) by lra.
    + unfold t. rewrite Hdist. field. split; lra.
    + nra.
  - rewrite haversine_meridian;
      replace (lat2 - (lat1 + t * (lat2 - lat1))) with ((1 - t) * (lat2 - lat1))
        by ring;
      rewrite Rabs_mult, (Rabs_right (1 - t)) by lra.
    + assert (d - resolution = (1 - t) * d) as -> by (unfold t; field; lra).
      rewrite Hdist. ring.
    + nra.
Qed.

Lemma next_insertion_on_meridian_witness :
  exists lat,
    next_insertion there_and_back 0 5 = Some (((0 + 1) mod 3)%nat, (0, lat)) /\
    haversine (0, 0) (0, lat) = 5 /\
    haversine (0, lat) (0, 1 / 2) = haversine (0, 0) (0, 1 / 2) - 5.
Proof.
  apply (next_insertion_on_meridian there_and_back 0 0 0 (1 / 2) 5).
  - reflexivity.
  - reflexivity.
  - rewrite Rabs_right; lra.
  - lra.
  - rewrite haversine_half_degree. pose proof PI_gt_3. lra.
Defined.

(** ** The interior points *)

Lemma np_where_from_index (A : Type) (f : A -> bool) (d : A) (l pre : list A) :
  map (fun i => nth i (pre ++ l) d) (np_where_from (length pre) (map f l))
  = filter f l.
Proof.
  revert pre; induction l as [|a l IH]; intros pre; [reflexivity|].
  cbn [map np_where_from filter].
  pose proof (IH (pre ++ [a])) as Hrec.
  rewrite <- app_assoc, length_app in Hrec. cbn [app length] in Hrec.
  replace (length pre + 1)%nat with (S (length pre)) in Hrec by lia.
  destruct (f a); cbn [map]; rewrite Hrec; [|reflexivity].
  rewrite app_nth2, Nat.sub_diag by lia. reflexivity.
Qed.

Lemma map_fst_combine (A B : Type) (f : A -> bool) (l : list A) (l' : list B) :
  length l = length l' ->
  map f l = map (fun row => f (fst row)) (combine l l').
Proof.
  revert l'; induction l as [|a l IH]; intros [|b l'] Hlen; simpl in *;
    try discriminate; [reflexivity|].
  rewrite (IH l') by lia. reflexivity.
Qed.

(** Indexing by the positions of the true entries of a mask is filtering. *)
Lemma interior_filter (contains_points : contour -> point -> bool)
  (path : contour) (dtheta z : field R) :
  length (grid dtheta) = length (data z) ->
  interior contains_points path dtheta z
  = filter (fun row => contains_points path (fst row))
      (combine (grid dtheta) (data z)).
Proof.
  intros Hlen. unfold interior, np_where.
  rewrite (map_fst_combine _ _ (contains_points path) _ _ Hlen).
  exact (np_where_from_index _ (fun row => contains_points path (fst row))
           (origin, 0) (combine (grid dtheta) (data z)) []).
Qed.

(** X18.  When [get_points] returns, the boundary is the longest closed contour
    of the mask at the threshold of 100 km, and the interior points are the
    grid points that the polygon of the boundary contains, each with its
    altitude, in the order of the grid. *)
Theorem get_points_interior
  (iplt_contour : field Z -> R -> list contour)
  (contains_points : contour -> point -> bool)
  (fuel : nat) (dtheta pv z : field R) (resolution : R)
  (boundary : contour) (points : list row3) :
  length (grid dtheta) = length (data z) ->
  get_points iplt_contour contains_points fuel dtheta pv z resolution
  = Some (Ok (boundary, points)) ->
  get_longest_closed_contour
    (iplt_contour (Field (grid pv) (criteria_mask (data pv) (data dtheta))) (1 / 2))
    100 = Ok boundary /\
  points = filter (fun row => contains_points boundary (fst row))
             (combine (grid dtheta) (data z)) /\
  (forall row, In row points <->
     In row (combine (grid dtheta) (data z)) /\
     contains_points boundary (fst row) = true).
Proof.
  intros Hlen Hrun.
  destruct (get_points_boundary iplt_contour contains_points fuel dtheta pv z
              resolution boundary points Hrun) as [Hsel ->].
  split; [exact Hsel|].
  rewrite (interior_filter contains_points boundary dtheta z Hlen).
  split; [reflexivity|].
  intros row. apply filter_In.
Qed.

Lemma get_points_interior_witness :
  exists fuel boundary points,
    get_points (fun _ _ => [there_and_back]) (fun _ _ => true) fuel
      half_degree_field half_degree_field half_degree_altitude 5
    = Some (Ok (boundary, points)) /\
    points = filter (fun _ => true) [((0, 1 / 4), 9000)].
Proof.
  destruct (get_points_returns (fun _ _ => [there_and_back]) (fun _ _ => true)
              half_degree_field half_degree_field half_degree_altitude 5
              there_and_back there_and_back_selected ltac:(lra)) as [fuel Hrun].
  { unfold there_and_back, last_point; simpl. rewrite haversine_refl; lra. }
  exists fuel. eexists _, _. split; [exact Hrun|].
  exact (proj1 (proj2 (get_points_interior
                         (fun _ _ => [there_and_back]) (fun _ _ => true) fuel
                         half_degree_field half_degree_field
                         half_degree_altitude 5 _ _ eq_refl Hrun))).
Defined.

(** ** Further properties of the per-level driver *)

Section DriverErrors.

Variable iplt_contour : field Z -> R -> list contour.
Variable contains_points : contour -> point -> bool.
Variable level_subsets : R -> field R * field R * field R.
Variable fuel : nat.
Variable resolution : R.

Local Abbreviation extraction :=
  (extraction iplt_contour contains_points level_subsets fuel resolution).

Lemma outflow_th_levels_abort (theta : R) (after : list R) (e : exn)
  (before : list R) :
  forall (st : locals) (log : list event),
    (forall t, In t before -> level_settled extraction t) ->
    consistent st ->
    extraction theta = Some (Raise e) ->
    (forall msg, e <> ValueError msg) ->
    outflow_th_levels iplt_contour contains_points level_subsets fuel
      (before ++ theta :: after) resolution st log
    = Some (log ++ flat_map (level_console extraction) before ++ [PrintLevel theta],
            Raise e).
Proof.
  induction before as [|t rest IH]; intros st log Hsettled Hst Hrun He.
  - cbn [app flat_map].
    rewrite (outflow_th_levels_cons iplt_contour contains_points level_subsets
               fuel resolution theta after st log), Hrun.
    destruct e; try reflexivity. exfalso; exact (He msg eq_refl).
  - assert (forall t', In t' rest -> level_settled extraction t') as Hrest
      by (intros t' Ht'; apply Hsettled; right; exact Ht').
    change ((t :: rest) ++ theta :: after) with (t :: (rest ++ theta :: after)).
    rewrite (outflow_th_levels_cons iplt_contour contains_points level_subsets
               fuel resolution t (rest ++ theta :: after) st log).
    cbn [flat_map]. unfold level_console at 1, level_succeeded at 1.
    destruct (Hsettled t (or_introl eq_refl)) as [(b & pts & Ht) | (msg & Ht)];
      rewrite Ht; cbv beta iota.
    + destruct Hst as [(Hnew & Hb & Hv) | (Hnew & b0 & v0 & Hb & Hv)];
        rewrite Hnew; [|rewrite Hb, Hv];
        (rewrite IH;
         [ rewrite <- !app_assoc; reflexivity
         | exact Hrest
         | right; split; [reflexivity | eexists _, _; split; reflexivity]
         | exact Hrun
         | exact He ]).
    + rewrite IH; [|exact Hrest | exact Hst | exact Hrun | exact He].
      rewrite <- !app_assoc. reflexivity.
Qed.

End DriverErrors.

(** X19.  Only a ValueError of the extraction is answered by the notice.  When
    the extraction at a level raises another exception, as the IndexError
    of a contour without nodes, the call ends with that exception at that
    level, with or without [save]: the levels before it have left their
    lines on the console, the levels after it are not visited, and nothing
    is saved or shown. *)
Theorem outflow_th_other_exception
  (iplt_contour : field Z -> R -> list contour)
  (contains_points : contour -> point -> bool)
  (level_subsets : R -> field R * field R * field R)
  (fuel : nat) (resolution : R) (save : bool)
  (before after : list R) (theta : R) (e : exn) :
  let extraction :=
    extraction iplt_contour contains_points level_subsets fuel resolution in
  (forall t, In t before -> level_settled extraction t) ->
  extraction theta = Some (Raise e) ->
  (forall msg, e <> ValueError msg) ->
  outflow_th iplt_contour contains_points level_subsets fuel
    (before ++ theta :: after) resolution save
  = Some (flat_map (level_console extraction) before ++ [PrintLevel theta],
          Raise e).
Proof.
  intros extraction Hsettled Hrun He. unfold outflow_th.
  rewrite (outflow_th_levels_abort iplt_contour contains_points level_subsets
             fuel resolution theta after e before (Locals true None None) []
             Hsettled (or_introl (conj eq_refl (conj eq_refl eq_refl))) Hrun He).
  reflexivity.
Qed.

Lemma outflow_th_other_exception_witness :
  outflow_th (fun _ _ => [[]]) (fun _ _ => true) fields_below_322 0
    ([] ++ 320 :: [325]) 5 true
  = Some ([PrintLevel 320], Raise IndexError).
Proof.
  apply (outflow_th_other_exception (fun _ _ => [[]]) (fun _ _ => true)
           fields_below_322 0 5 true [] [325] 320 IndexError).
  - intros t [].
  - unfold extraction. destruct (fields_below_322 320) as [[dtheta pv] z].
    reflexivity.
  - discriminate.
Defined.

(** The two levels of the example: a closed contour at 320 K, none at 325 K. *)
Lemma extraction_at_320 (contains_points : contour -> point -> bool) :
  exists fuel,
    extraction contours_of_mask contains_points fields_below_322 fuel 5 320
    = Some (Ok (there_and_back,
                interior contains_points there_and_back half_degree_field
                  half_degree_altitude)) /\
    extraction contours_of_mask contains_points fields_below_322 fuel 5 325
    = Some (Raise no_closed_contours).
Proof.
  assert (criteria_mask [1] [1] = [1%Z]) as Hset.
  { cbn [criteria_mask].
    destruct (Rlt_dec 1 2); [|lra]. destruct (Rgt_dec 1 0); [reflexivity | lra]. }
  assert (criteria_mask [3] [1] = [0%Z]) as Hunset.
  { cbn [criteria_mask]. destruct (Rlt_dec 3 2); [lra | reflexivity]. }
  destruct (get_points_returns contours_of_mask contains_points
              half_degree_field half_degree_field half_degree_altitude 5
              there_and_back) as [fuel Hrun].
  { unfold contours_of_mask, half_degree_field. cbn [data grid].
    rewrite Hset. exact there_and_back_selected. }
  { lra. }
  { unfold there_and_back, last_point; simpl. rewrite haversine_refl; lra. }
  exists fuel. unfold extraction, fields_below_322. split.
  - destruct (Rlt_dec 320 322); [exact Hrun | lra].
  - destruct (Rlt_dec 325 322); [lra|].
    unfold get_points, contours_of_mask, half_degree_field, stratospheric_field.
    cbn [data grid]. rewrite Hunset, open_line_not_selected. reflexivity.
Qed.

Lemma outflow_th_saves_successful_witness :
  exists fuel,
    outflow_th contours_of_mask (fun _ _ => true) fields_below_322 fuel
      [320; 325] 5 true
    = Some ([PrintLevel 320;
             PrintLevel 325;
             PrintText "No closed contours found at this level";
             NpSaveBoundaries "outflow_boundaries.npy"
               [((0, 0), 320); ((0, 1 / 2), 320); ((0, 0), 320)];
             NpSaveVolume "outflow_volume.npy" [(((0, 1 / 4), 9000), 320)]],
            Ok tt).
Proof.
  destruct (extraction_at_320 (fun _ _ => true)) as (fuel & H320 & H325).
  exists fuel.
  rewrite (outflow_th_saves_successful contours_of_mask (fun _ _ => true)
             fields_below_322 fuel 5 [320; 325]).
  - cbn [flat_map]. unfold level_console, level_succeeded, level_boundary,
      level_volume. rewrite H320, H325. reflexivity.
  - intros t [<- | [<- | []]]; [left | right].
    + eexists _, _; exact H320.
    + eexists; exact H325.
  - cbn [existsb]. unfold level_succeeded. rewrite H320. reflexivity.
Defined.

(** ** Further properties of the bin edges *)

Lemma np_diff_sum (a : R) (x : list R) :
  fold_right Rplus 0 (np_diff (a :: x)) = last (a :: x) 0 - a /\
  length (np_diff (a :: x)) = length x.
Proof.
  revert a; induction x as [|b x IH]; intros a.
  - simpl; split; [ring | reflexivity].
  - destruct (IH b) as [Hsum Hlen].
    change (np_diff (a :: b :: x)) with ((b - a) :: np_diff (b :: x)).
    change (last (a :: b :: x) 0) with (last (b :: x) 0).
    cbn [fold_right length]. rewrite Hsum, Hlen. split; [ring | reflexivity].
Qed.

(** The mean spacing is the extent of the grid over the number of cells. *)
Lemma mean_np_diff (a b : R) (x : list R) :
  mean (np_diff (a :: b :: x))
  = (last (a :: b :: x) 0 - a) / INR (length (b :: x)).
Proof.
  unfold mean. destruct (np_diff_sum a (b :: x)) as [-> ->]. reflexivity.
Qed.

Lemma np_diff_shift (dx : R) (x : list R) :
  np_diff (map (fun xi => xi - dx) x) = np_diff x.
Proof.
  induction x as [|a x IH]; [reflexivity|].
  destruct x as [|b x]; [reflexivity|].
  change (np_diff (map (fun xi => xi - dx) (a :: b :: x)))
    with ((b - dx - (a - dx)) :: np_diff (map (fun xi => xi - dx) (b :: x))).
  rewrite IH.
  change (np_diff (a :: b :: x)) with ((b - a) :: np_diff (b :: x)).
  f_equal. ring.
Qed.

Lemma np_diff_snoc (a : R) (x : list R) (y : R) :
  np_diff ((a :: x) ++ [y]) = np_diff (a :: x) ++ [y - last (a :: x) 0].
Proof.
  revert a; induction x as [|b x IH]; intros a; [reflexivity|].
  change (np_diff ((a :: b :: x) ++ [y]))
    with ((b - a) :: np_diff ((b :: x) ++ [y])).
  rewrite IH. reflexivity.
Qed.

Lemma last_map_shift (dx a : R) (x : list R) :
  last (map (fun xi => xi - dx) (a :: x)) 0 = last (a :: x) 0 - dx.
Proof.
  revert a; induction x as [|b x IH]; intros a; [reflexivity|].
  change (last (map (fun xi => xi - dx) (a :: b :: x)) 0)
    with (last (map (fun xi => xi - dx) (b :: x)) 0).
  rewrite IH. reflexivity.
Qed.

(** X20.  On a grid of at least two coordinates [_bin_edges] returns one edge
    more than there are coordinates; the spacing it uses is the extent of
    the grid over the number of cells; the bins but the last are as wide as
    the cells of the grid, and the last bin is twice the spacing wide. *)
Theorem bin_edges_widths (a b : R) (x : list R) :
  let dx := (last (a :: b :: x) 0 - a) / INR (length (b :: x)) in
  exists xed,
    _bin_edges (a :: b :: x) = Ok xed /\
    length xed = S (length (a :: b :: x)) /\
    hd 0 xed = a - dx /\
    last xed 0 = last (a :: b :: x) 0 + dx /\
    np_diff xed = np_diff (a :: b :: x) ++ [2 * dx].
Proof.
  cbv zeta. unfold _bin_edges. rewrite mean_np_diff.
  set (dx := (last (a :: b :: x) 0 - a) / INR (length (b :: x))).
  eexists; split; [reflexivity|].
  split; [rewrite length_app, length_map; simpl; lia|].
  split; [reflexivity|].
  split; [apply last_last|].
  change (map (fun xi => xi - dx) (a :: b :: x))
    with ((a - dx) :: map (fun xi => xi - dx) (b :: x)).
  rewrite np_diff_snoc.
  change ((a - dx) :: map (fun xi => xi - dx) (b :: x))
    with (map (fun xi => xi - dx) (a :: b :: x)).
  rewrite np_diff_shift, last_map_shift. do 2 f_equal. ring.
Qed.

Lemma sorted_le_last (a : R) (x : list R) :
  StronglySorted Rlt (a :: x) -> a <= last (a :: x) 0.
Proof.
  intros Hs. inversion Hs as [|a' x' _ Hall]; subst.
  destruct x as [|b x]; [simpl; lra|].
  rewrite Forall_forall in Hall.
  assert (In (last (b :: x) 0) (b :: x)) as Hin.
  { destruct (exists_last (l := b :: x) ltac:(discriminate)) as (front & z & ->).
    rewrite last_last. apply in_or_app; right; left; reflexivity. }
  change (last (a :: b :: x) 0) with (last (b :: x) 0).
  specialize (Hall _ Hin). lra.
Qed.

Lemma sorted_shift_snoc (dx top : R) (x : list R) :
  StronglySorted Rlt x ->
  (forall xi, In xi x -> xi - dx < top) ->
  StronglySorted Rlt (map (fun xi => xi - dx) x ++ [top]).
Proof.
  induction 1 as [|a x Hs IH Hall]; intros Htop; cbn [map app].
  - repeat constructor.
  - constructor.
    + apply IH. intros xi Hxi; apply Htop; right; exact Hxi.
    + rewrite Forall_forall in *. intros y Hy.
      apply in_app_or in Hy. destruct Hy as [Hy | [<- | []]].
      * apply in_map_iff in Hy. destruct Hy as (xi & <- & Hxi).
        specialize (Hall _ Hxi). lra.
      * apply Htop; left; reflexivity.
Qed.

(** X21.  On a strictly increasing grid of at least two coordinates the edges
    are strictly increasing, as a histogram requires of its bins. *)
Theorem bin_edges_increasing (a b : R) (x : list R) :
  StronglySorted Rlt (a :: b :: x) ->
  exists xed,
    _bin_edges (a :: b :: x) = Ok xed /\ StronglySorted Rlt xed.
Proof.
  intros Hs. unfold _bin_edges. rewrite mean_np_diff.
  set (dx := (last (a :: b :: x) 0 - a) / INR (length (b :: x))).
  eexists; split; [reflexivity|].
  assert (0 < dx) as Hdx.
  { unfold dx. apply Rdiv_lt_0_compat; [|apply lt_0_INR; simpl; lia].
    inversion Hs as [|a' x' Hs' Hall]; subst.
    rewrite Forall_forall in Hall. specialize (Hall b (or_introl eq_refl)).
    pose proof (sorted_le_last b x Hs').
    change (last (a :: b :: x) 0) with (last (b :: x) 0). lra. }
  apply sorted_shift_snoc; [exact Hs|].
  intros xi Hxi.
  assert (xi <= last (a :: b :: x) 0); [|lra].
  clear - Hs Hxi. revert Hxi.
  generalize (a :: b :: x) Hs. clear. intros l Hs.
  induction Hs as [|c l Hs IH Hall]; intros Hxi; [destruct Hxi|].
  destruct Hxi as [<- | Hxi]; [apply sorted_le_last; constructor; assumption|].
  destruct l as [|d l]; [destruct Hxi|].
  change (last (c :: d :: l) 0) with (last (d :: l) 0). apply IH; exact Hxi.
Qed.

Lemma bin_edges_increasing_witness :
  exists xed, _bin_edges [0; 1; 3] = Ok xed /\ StronglySorted Rlt xed.
Proof.
  apply (bin_edges_increasing 0 1 [3]).
  repeat constructor; lra.
Defined.

(** ** The contours at the inflow time *)

Section Inflow.

Variable histogram_contours : list R -> list R -> list R * list R -> list contour.
Variable select_theta : R -> list R * list R.
Variables x y : list R.

Local Abbreviation run := (inflow_loop histogram_contours select_theta x y).

Lemma at_inflow_time_levels_cons (theta : R) (rest : list R)
  (log : list inflow_event) :
  at_inflow_time_levels histogram_contours select_theta (theta :: rest) x y log
  = match run theta with
    | Raise e => (log, Raise e)
    | Ok closed_loop =>
        at_inflow_time_levels histogram_contours select_theta rest x y
          (log ++ [NpSaveInflow theta closed_loop])
    end.
Proof.
  cbn [at_inflow_time_levels]. unfold inflow_loop.
  destruct (select_theta theta) as [xpoints ypoints]. reflexivity.
Qed.

Lemma at_inflow_time_levels_all (outflow_theta : list R) :
  forall log,
    (forall t, In t outflow_theta -> exists closed_loop, run t = Ok closed_loop) ->
    at_inflow_time_levels histogram_contours select_theta outflow_theta x y log
    = (log ++ inflow_saved run outflow_theta, Ok tt).
Proof.
  induction outflow_theta as [|theta rest IH]; intros log Hall.
  - cbn. rewrite app_nil_r. reflexivity.
  - rewrite at_inflow_time_levels_cons.
    destruct (Hall theta (or_introl eq_refl)) as [closed_loop Hrun].
    unfold inflow_saved. cbn [flat_map]. rewrite Hrun.
    rewrite IH by (intros t Ht; apply Hall; right; exact Ht).
    rewrite <- app_assoc. reflexivity.
Qed.

Lemma at_inflow_time_levels_stop (theta : R) (e : exn) (after before : list R) :
  forall log,
    (forall t, In t before -> exists closed_loop, run t = Ok closed_loop) ->
    run theta = Raise e ->
    at_inflow_time_levels histogram_contours select_theta
      (before ++ theta :: after) x y log
    = (log ++ inflow_saved run before, Raise e).
Proof.
  induction before as [|t rest IH]; intros log Hall Hrun.
  - cbn [app]. rewrite at_inflow_time_levels_cons, Hrun.
    cbn. rewrite app_nil_r. reflexivity.
  - change ((t :: rest) ++ theta :: after) with (t :: (rest ++ theta :: after)).
    rewrite at_inflow_time_levels_cons.
    destruct (Hall t (or_introl eq_refl)) as [closed_loop Ht].
    unfold inflow_saved. cbn [flat_map]. rewrite Ht.
    rewrite IH by (try assumption; intros t' Ht'; apply Hall; right; exact Ht').
    rewrite <- app_assoc. reflexivity.
Qed.

End Inflow.

(** X22.  [at_inflow_time] handles no exception.  When every level has a
    closed contour around its trajectories, one file is written per level,
    in the order of the levels, and the figure is shown.  When a level has
    none, or the contouring fails in another way, the call ends there with
    that exception: the files of the levels before it are written, the
    levels after it are not visited, and nothing is shown. *)
Theorem at_inflow_time_first_failure
  (histogram_contours : list R -> list R -> list R * list R -> list contour)
  (select_theta : R -> list R * list R) (x y : list R) (before : list R) :
  let run := inflow_loop histogram_contours select_theta x y in
  (forall t, In t before -> exists closed_loop, run t = Ok closed_loop) ->
  at_inflow_time histogram_contours select_theta before x y
  = (inflow_saved run before ++ [InflowShow], Ok tt) /\
  forall theta e after,
    run theta = Raise e ->
    at_inflow_time histogram_contours select_theta (before ++ theta :: after) x y
    = (inflow_saved run before, Raise e).
Proof.
  intros run Hall. unfold at_inflow_time. split.
  - rewrite (at_inflow_time_levels_all histogram_contours select_theta x y
               before [] Hall). reflexivity.
  - intros theta e after Hrun.
    rewrite (at_inflow_time_levels_stop histogram_contours select_theta x y
               theta e after before [] Hall Hrun). reflexivity.
Qed.

Lemma at_inflow_time_first_failure_witness :
  at_inflow_time contours_of_positions positions_below_322 [320] [0; 1] [0; 1]
  = ([NpSaveInflow 320 there_and_back; InflowShow], Ok tt) /\
  at_inflow_time contours_of_positions positions_below_322
    ([320] ++ 325 :: [330]) [0; 1] [0; 1]
  = ([NpSaveInflow 320 there_and_back], Raise no_closed_contours).
Proof.
  assert (inflow_loop contours_of_positions positions_below_322 [0; 1] [0; 1] 320
          = Ok there_and_back) as H320.
  { unfold inflow_loop, positions_below_322.
    destruct (Rlt_dec 320 322); [|lra].
    unfold contour_around_points, _bin_edges. cbn [bind contours_of_positions].
    exact there_and_back_selected. }
  assert (inflow_loop contours_of_positions positions_below_322 [0; 1] [0; 1] 325
          = Raise no_closed_contours) as H325.
  { unfold inflow_loop, positions_below_322.
    destruct (Rlt_dec 325 322); [lra|].
    unfold contour_around_points, _bin_edges. cbn [bind contours_of_positions].
    exact open_line_not_selected. }
  destruct (at_inflow_time_first_failure contours_of_positions
              positions_below_322 [0; 1] [0; 1] [320]) as [Hall Hstop].
  - intros t [<- | []]. exists there_and_back. exact H320.
  - unfold inflow_saved in *. cbn [flat_map] in *. rewrite H320 in *.
    split; [exact Hall | exact (Hstop 325 no_closed_contours [330] H325)].
Defined.

(** ** The closure test *)

(** X23.  The closure test compares the distance between the first and the last
    node with the threshold.  A contour that repeats its first node at its
    end, and a contour of one node, pass for every positive threshold; no
    contour passes for a threshold of zero or less; the test does not depend
    on the orientation; and a contour without nodes raises IndexError. *)
Theorem is_closed_contour_cases (p : point) (mid : contour) (threshold : R) :
  (0 < threshold ->
   is_closed_contour (p :: mid ++ [p]) threshold = Ok true /\
   is_closed_contour [p] threshold = Ok true) /\
  (threshold <= 0 ->
   forall c, c <> [] -> is_closed_contour c threshold = Ok false) /\
  (forall c, is_closed_contour (rev c) threshold = is_closed_contour c threshold) /\
  is_closed_contour [] threshold = Raise IndexError.
Proof.
  split; [|split; [|split]].
  - intros Hpos. unfold is_closed_contour, last_point.
    change (p :: mid ++ [p]) with ((p :: mid) ++ [p]). rewrite last_last.
    cbn [last]. rewrite haversine_refl.
    destruct (Rlt_dec 0 threshold); [split; reflexivity | lra].
  - intros Hneg [|q c] Hc; [congruence|].
    unfold is_closed_contour.
    pose proof (haversine_nonneg q (last_point (q :: c))).
    destruct (Rlt_dec _ threshold); [lra | reflexivity].
  - intros [|q c]; [reflexivity|].
    destruct (rev (q :: c)) as [|z front] eqn:E.
    { apply (f_equal (@length point)) in E. rewrite length_rev in E.
      discriminate E. }
    unfold is_closed_contour, last_point.
    assert (last (z :: front) origin = q) as ->.
    { rewrite <- E. change (rev (q :: c)) with (rev c ++ [q]). apply last_last. }
    assert (last (q :: c) origin = z) as ->.
    { rewrite <- (rev_involutive (q :: c)), E.
      change (rev (z :: front)) with (rev front ++ [z]). apply last_last. }
    rewrite (haversine_sym z q). reflexivity.
  - reflexivity.
Qed.

(** ** The extractor at a resolution of zero *)

(** X24.  The extractor runs the resampling loop although it does not use the
    array that the loop builds.  At a resolution of zero it therefore never
    returns once the selected contour has two consecutive nodes at a
    positive distance. *)
Theorem get_points_zero_resolution
  (iplt_contour : field Z -> R -> list contour)
  (contains_points : contour -> point -> bool)
  (dtheta pv z : field R)
  (before : contour) (p q : point) (after : contour) (fuel : nat) :
  get_longest_closed_contour
    (iplt_contour (Field (grid pv) (criteria_mask (data pv) (data dtheta))) (1 / 2))
    100 = Ok (before ++ p :: q :: after) ->
  haversine p q > 0 ->
  get_points iplt_contour contains_points fuel dtheta pv z 0 = None.
Proof.
  intros Hsel Hd. unfold get_points. rewrite Hsel.
  unfold alloc; simpl app; simpl length.
  unfold increase_circuit_resolution_ref.
  match goal with
  | |- context [circuit_loop_ref ?f ?n ?h ?r ?res] =>
      pose proof (circuit_loop_ref_spec f n h r res) as Hspec;
      destruct (circuit_loop_ref f n h r res) as [h' returned]
  end.
  destruct Hspec as [_ Hret].
  destruct returned as [r|]; [|reflexivity].
  destruct Hret as [Hrun _].
  unfold deref in Hrun. cbn [nth] in Hrun.
  pose proof (zero_resolution_reaches before fuel [] p q after Hd) as Hnone.
  cbn [app length] in Hnone. congruence.
Qed.

Lemma get_points_zero_resolution_witness :
  get_points (fun _ _ => [there_and_back]) (fun _ _ => true) 1000
    half_degree_field half_degree_field half_degree_altitude 0 = None.
Proof.
  apply (get_points_zero_resolution (fun _ _ => [there_and_back])
           (fun _ _ => true) half_degree_field half_degree_field
           half_degree_altitude [] (0, 0) (0, 1 / 2) [(0, 0)] 1000).
  - exact there_and_back_selected.
  - rewrite haversine_half_degree. pose proof PI_RGT_0. lra.
Defined.

End OutflowProps.

(** * Properties of the resampler on binary64 *)

Module OutflowBinary64Props.

Import Floats.PrimFloat.
Import OutflowBinary64 OutflowBinary64Examples.

Lemma np_insert_inside (before rest : contour) (i : nat) (row : point) :
  (i <= length before)%nat ->
  np_insert (before ++ rest) i row = np_insert before i row ++ rest /\
  length (np_insert before i row) = S (length before).
Proof.
  intros Hi. unfold np_insert. split.
  - rewrite firstn_app, skipn_app.
    replace (i - length before)%nat with 0%nat by lia.
    cbn [firstn skipn]. rewrite app_nil_r, <- app_assoc. reflexivity.
  - rewrite length_app. cbn [length].
    rewrite length_firstn, length_skipn. lia.
Qed.

Section Absorbed.

Variables np_deg2rad np_sin np_cos np_arcsin np_square : float -> float.

Local Abbreviation haversine :=
  (haversine np_deg2rad np_sin np_cos np_arcsin np_square).
Local Abbreviation next_insertion :=
  (next_insertion np_deg2rad np_sin np_cos np_arcsin np_square).
Local Abbreviation circuit_step :=
  (circuit_step np_deg2rad np_sin np_cos np_arcsin np_square).
Local Abbreviation circuit_loop :=
  (circuit_loop np_deg2rad np_sin np_cos np_arcsin np_square).

Variables (p q : point) (after : contour) (resolution : float).

Hypothesis further : (resolution <? haversine p q)%float = true.
Hypothesis absorbed_lon :
  (fst p + resolution / haversine p q * (fst q - fst p))%float = fst p.
Hypothesis absorbed_lat :
  (snd p + resolution / haversine p q * (snd q - snd p))%float = snd p.

(** A pass before the node [p] leaves [p], [q] and the nodes after them in
    place and keeps the index at or before [p]; the pass at [p] inserts a
    copy of [p]. *)
Lemma circuit_step_absorbed (before : contour) (n : nat) :
  (n <= length before)%nat ->
  exists before',
    circuit_step (before ++ p :: q :: after) n resolution
    = before' ++ p :: q :: after /\
    (n + 1 <= length before')%nat.
Proof.
  intros Hn. unfold OutflowBinary64.circuit_step, OutflowBinary64.next_insertion.
  assert (length (before ++ p :: q :: after) = length before + 2 + length after)%nat
    as Hlen by (rewrite length_app; simpl; lia).
  rewrite Hlen, Nat.mod_small by lia.
  destruct (Nat.eq_dec n (length before)) as [->|Hne].
  - rewrite app_nth2, Nat.sub_diag by lia.
    rewrite app_nth2 by lia.
    replace (length before + 1 - length before)%nat with 1%nat by lia.
    cbn [nth]. rewrite further, absorbed_lon, absorbed_lat.
    exists (before ++ [p]). split.
    + replace (before ++ p :: q :: after) with ((before ++ [p]) ++ q :: after)
        by (rewrite <- app_assoc; reflexivity).
      destruct (np_insert_inside (before ++ [p]) (q :: after)
                  (length before + 1) (fst p, snd p)) as [-> _];
        [rewrite length_app; simpl; lia|].
      unfold np_insert.
      replace (length before + 1)%nat with (length (before ++ [p]))
        by (rewrite length_app; reflexivity).
      rewrite firstn_all, skipn_all. cbn [app].
      rewrite <- !app_assoc. destruct p; reflexivity.
    + rewrite length_app; simpl; lia.
  - match goal with |- context [if ?c then _ else _] => destruct c end.
    + match goal with
      | |- context [np_insert _ ?i ?row] =>
          destruct (np_insert_inside before (p :: q :: after) i row)
            as [Heq Hl]; [lia|]
      end.
      eexists; split; [exact Heq | lia].
    + exists before. split; [reflexivity | lia].
Qed.

Lemma circuit_loop_absorbed (fuel : nat) :
  forall (before : contour) (n : nat),
    (n <= length before)%nat ->
    circuit_loop fuel n (before ++ p :: q :: after) resolution = None.
Proof.
  induction fuel as [|fuel IH]; intros before n Hn; [reflexivity|].
  cbn [OutflowBinary64.circuit_loop].
  destruct (Nat.ltb_spec n (length (before ++ p :: q :: after))) as [_|Hge];
    [|rewrite length_app in Hge; simpl in Hge; lia].
  destruct (circuit_step_absorbed before n Hn) as (before' & -> & Hn').
  apply IH. exact Hn'.
Qed.

End Absorbed.

(** C6, where rounding absorbs the step.  When the next node is further away
    than the spacing and the sums that give the inserted node round to the
    coordinates of the current node, the pass inserts a copy of the current
    node, the index moves on to the copy, and the next pass is in the same
    position: no number of passes ends the loop, whatever the elementary
    functions return and wherever in the contour the two nodes are. *)
Theorem increase_circuit_resolution_absorbed_step
  (np_deg2rad np_sin np_cos np_arcsin np_square : float -> float)
  (before : contour) (p q : point) (after : contour) (resolution : float)
  (fuel : nat) :
  let distance := haversine np_deg2rad np_sin np_cos np_arcsin np_square p q in
  (0 <? resolution)%float = true ->
  (resolution <? distance)%float = true ->
  (fst p + resolution / distance * (fst q - fst p))%float = fst p ->
  (snd p + resolution / distance * (snd q - snd p))%float = snd p ->
  increase_circuit_resolution np_deg2rad np_sin np_cos np_arcsin np_square
    fuel (before ++ p :: q :: after) resolution = None.
Proof.
  intros distance _ Hfar Hlon Hlat. unfold increase_circuit_resolution.
  apply (circuit_loop_absorbed np_deg2rad np_sin np_cos np_arcsin np_square
           p q after resolution Hfar Hlon Hlat fuel before 0).
  lia.
Qed.

(** At two nodes one degree apart on a meridian and a spacing of 1e-13 km,
    with a distance of 111.19 km between the nodes. *)
Lemma increase_circuit_resolution_absorbed_step_witness :
  haversine (fun x => x) (fun x => x) (fun x => x) fixed_arcsin (fun x => x)
    (10, 50)%float (10, 51)%float = one_degree_km /\
  forall fuel,
    increase_circuit_resolution (fun x => x) (fun x => x) (fun x => x)
      fixed_arcsin (fun x => x) fuel one_degree tenth_of_nanometre = None.
Proof.
  split; [vm_compute; reflexivity|].
  intros fuel.
  apply (increase_circuit_resolution_absorbed_step
           (fun x => x) (fun x => x) (fun x => x) fixed_arcsin (fun x => x)
           [] (10, 50)%float (10, 51)%float [] tenth_of_nanometre fuel);
    vm_compute; reflexivity.
Defined.

(** The step is absorbed at the distance of the example and at the binary64
    values next to it. *)
Lemma step_absorbed_near_one_degree_km (distance : float) :
  In distance [next_down one_degree_km; one_degree_km; next_up one_degree_km] ->
  (tenth_of_nanometre <? distance)%float = true /\
  (10 + tenth_of_nanometre / distance * (10 - 10))%float = 10%float /\
  (50 + tenth_of_nanometre / distance * (51 - 50))%float = 50%float.
Proof.
  intros [<- | [<- | [<- | []]]]; repeat split; vm_compute; reflexivity.
Qed.

End OutflowBinary64Props.
